(** * wordpress-props: contribution aggregation and identity resolution

    A shallow embedding of the props pipeline of this repository.  Two
    generations of the pipeline are in the tree:

    - [run] of [src/index.js], with [escapeForGql], [skipUser] and
      [contributorAlreadyPresent] as [src/utils.js] has them: all three are
      declared [async] and [run] calls them without [await].  The file holds
      two drafts of [run] with the same body; the one embedded here is the
      self-contained draft, which declares the three helpers next to the
      module state they read.
    - the refactored [getContributorsList], whose [skipUser] and
      [contributorAlreadyPresent] are plain synchronous functions, and which
      returns early when no contributor was gathered.

    The aggregation loops, the directory merge and the renderer are the same
    text in both; they are embedded once, over the [skipUser] they call.
    Input nodes are taken well formed: every review, comment and issue has
    an author, and a commit without an account has an email. *)

From Stdlib Require Import ZArith Ascii String List Lia Permutation.
From stdpp Require Import base option list strings gmap fin_maps.

Local Open Scope string_scope.
Local Open Scope list_scope.

(** ** JavaScript values seen by conditions

    Only what the pipeline's conditions inspect: booleans, [undefined] (the
    result of a function that falls off its end) and the promise object an
    [async] function returns to a caller that does not [await] it. *)
Module Js.

Inductive value : Type :=
  | VBool (b : bool)
  | VUndefined
  | VPromise (settled : value).

(** ToBoolean: every object, a promise included, is truthy. *)
Definition truthy (v : value) : bool :=
  match v with
  | VBool b => b
  | VUndefined => false
  | VPromise _ => true
  end.

(** The unary [!] operator. *)
Definition not (v : value) : bool := negb (truthy v).

(** [Array.prototype.join]: [undefined] elements are written as the empty
    string. *)
Fixpoint join (sep : string) (xs : list (option string)) : string :=
  match xs with
  | [] => ""
  | [x] => default "" x
  | x :: rest => default "" x +:+ sep +:+ join sep rest
  end.

(** [Array.prototype.indexOf] on an array of strings. *)
Fixpoint indexOf_from (i : Z) (xs : list string) (x : string) : Z :=
  match xs with
  | [] => (-1)%Z
  | y :: rest => if String.eqb y x then i else indexOf_from (i + 1)%Z rest x
  end.

Definition indexOf : list string -> string -> Z := indexOf_from 0%Z.

(** A [Set] of strings iterates in insertion order; it is kept as the list of
    its members in that order. *)
Definition has (s : list string) (x : string) : bool :=
  existsb (String.eqb x) s.

Definition add (s : list string) (x : string) : list string :=
  if has s x then s else s ++ [x].

(** A [Set] has a [size] but no [length] property: reading [length] gives
    [undefined]. *)
Definition Set_length (s : list string) : option nat := None.

(** [v === 0] for a value read from a property that may be [undefined]. *)
Definition strict_eq_zero (v : option nat) : bool :=
  match v with
  | Some O => true
  | _ => false
  end.

End Js.

(** ** src/utils.js: the identity key sanitizer *)

(** The character class [[./-]] of the regular expression. *)
Definition in_class (c : ascii) : bool :=
  (Ascii.eqb c "." || Ascii.eqb c "/" || Ascii.eqb c "-")%bool.

(** [string.replace( /[./-]/g, '_' )]: every match of the one-character
    class is replaced, the other characters are kept. *)
Fixpoint replace_class (s : string) : string :=
  match s with
  | EmptyString => EmptyString
  | String c rest =>
      String (if in_class c then "_"%char else c) (replace_class rest)
  end.

(** [escapeForGql]; the function is [async], this is the string its promise
    resolves to. *)
Definition escapeForGql (s : string) : string := "_" +:+ replace_class s.

(** The policy in the specification's words: every character outside
    letters and digits becomes ['_'], and the token gets a leading ['_']. *)
Definition is_letter_or_digit (c : ascii) : bool :=
  let n := nat_of_ascii c in
  ((48 <=? n) && (n <=? 57) || (65 <=? n) && (n <=? 90)
   || (97 <=? n) && (n <=? 122))%bool%nat.

Fixpoint sanitize_policy_body (s : string) : string :=
  match s with
  | EmptyString => EmptyString
  | String c rest =>
      String (if is_letter_or_digit c then c else "_"%char)
             (sanitize_policy_body rest)
  end.

Definition sanitize_policy (s : string) : string :=
  "_" +:+ sanitize_policy_body s.

(** The inputs on which the two agree: strings whose characters outside
    letters and digits are all among ['.'], ['/'], ['-'] and ['_']. *)
Definition plain_char (c : ascii) : bool :=
  (is_letter_or_digit c || in_class c || Ascii.eqb c "_")%bool.

Fixpoint plain (s : string) : bool :=
  match s with
  | EmptyString => true
  | String c rest => plain_char c && plain rest
  end.

(** ** Data model *)

(** The account object of the contribution query:
    [user { databaseId login name email }]. *)
Record User : Type := {
  databaseId : Z;
  login : string;
  name : option string;
  email : string
}.

(** [commit.commit.author]: the linked account, [null] when the commit email
    belongs to no account, and the name and email written in the commit. *)
Record GitActor : Type := {
  user : option User;
  author_name : string;
  author_email : string
}.

(** A node of [closingIssuesReferences]: [author.login] and the
    [author.login] of each of its comments. *)
Record LinkedIssue : Type := {
  issue_author : string;
  issue_comments : list string
}.

(** The contribution query result.  Reviews and comments carry nothing but
    [author.login]. *)
Record ContributorData : Type := {
  commits : list GitActor;
  reviews : list string;
  comments : list string;
  closingIssuesReferences : list LinkedIssue
}.

Inductive ContributorType : Type :=
  | Committers
  | Reviewers
  | Commenters
  | Reporters.

Definition contributorTypes : list ContributorType :=
  [Committers; Reviewers; Commenters; Reporters].

Definition typeName (t : ContributorType) : string :=
  match t with
  | Committers => "committers"
  | Reviewers => "reviewers"
  | Commenters => "commenters"
  | Reporters => "reporters"
  end.

(** The module-level [contributors] object: one [Set] per type. *)
Record Contributors : Type := {
  committers : list string;
  reviewers : list string;
  commenters : list string;
  reporters : list string
}.

Definition members (c : Contributors) (t : ContributorType) : list string :=
  match t with
  | Committers => committers c
  | Reviewers => reviewers c
  | Commenters => commenters c
  | Reporters => reporters c
  end.

(** [contributors[t].add( x )] *)
Definition add_to (t : ContributorType) (x : string) (c : Contributors)
  : Contributors :=
  match t with
  | Committers =>
      {| committers := Js.add (committers c) x; reviewers := reviewers c;
         commenters := commenters c; reporters := reporters c |}
  | Reviewers =>
      {| committers := committers c; reviewers := Js.add (reviewers c) x;
         commenters := commenters c; reporters := reporters c |}
  | Commenters =>
      {| committers := committers c; reviewers := reviewers c;
         commenters := Js.add (commenters c) x; reporters := reporters c |}
  | Reporters =>
      {| committers := committers c; reviewers := reviewers c;
         commenters := commenters c; reporters := Js.add (reporters c) x |}
  end.

(** What [userData] holds under a key: the account object of a commit or of
    the batched profile request, or the [{ name, email }] literal built for a
    commit without an account; [dotOrg] is the own property the directory
    merge adds later. *)
Inductive ProfileData : Type :=
  | AccountProfile (u : User)
  | AuthorProfile (name email : string).

Record Profile : Type := {
  profile_data : ProfileData;
  dotOrg : option string
}.

Definition fresh_profile (d : ProfileData) : Profile :=
  {| profile_data := d; dotOrg := None |}.

(** The module-level state.  [userData] is declared as an array but only
    ever used as a property bag keyed by login or email; it is kept as a
    finite map over those keys. *)
Record State : Type := {
  contributors : Contributors;
  userData : gmap string Profile
}.

(** The state a freshly loaded module starts with. *)
Definition initial : State :=
  {| contributors :=
       {| committers := []; reviewers := []; commenters := [];
          reporters := [] |};
     userData := ∅ |}.

(** ** The skip and dedup policy *)

Definition skippedUsers : list string := ["github-actions"].

(** [contributorAlreadyPresent] of the refactored pipeline: [true] from
    inside the loop, [undefined] when the loop ends. *)
Fixpoint alreadyPresent_loop (c : Contributors) (username : string)
  (types : list ContributorType) : Js.value :=
  match types with
  | [] => Js.VUndefined
  | t :: rest =>
      if Js.has (members c t) username then Js.VBool true
      else alreadyPresent_loop c username rest
  end.

Definition contributorAlreadyPresent (c : Contributors) (username : string)
  : Js.value :=
  alreadyPresent_loop c username contributorTypes.

(** [skipUser] of the refactored pipeline. *)
Definition skipUser (c : Contributors) (username : string) : Js.value :=
  if ((Js.indexOf skippedUsers username =? -1)%Z
      && Js.not (contributorAlreadyPresent c username))%bool
  then Js.VBool false
  else Js.VBool true.

(** src/utils.js (and the same text inside src/index.js): both functions are
    [async], so a call evaluates to a promise of the value the body returns,
    and [skipUser] negates the promise of [contributorAlreadyPresent], not
    its value. *)
Module Utils.

Definition contributorAlreadyPresent (c : Contributors) (username : string)
  : Js.value :=
  Js.VPromise (alreadyPresent_loop c username contributorTypes).

Definition skipUser (c : Contributors) (username : string) : Js.value :=
  Js.VPromise
    (if ((Js.indexOf skippedUsers username =? -1)%Z
         && Js.not (contributorAlreadyPresent c username))%bool
     then Js.VBool false
     else Js.VBool true).

End Utils.

(** ** The aggregation pass *)

Section Aggregation.

(** The [skipUser] the loops call: the [async] one in [run], the
    synchronous one in [getContributorsList]. *)
Variable skip : Contributors -> string -> Js.value.

(** One iteration of the loop over [commits.nodes] whose [userData] store
    succeeds; the store that throws is in [commitLoop] below. *)
Definition processCommit (s : State) (a : GitActor) : State :=
  match user a with
  | None =>
      {| contributors := add_to Committers (author_email a) (contributors s);
         userData :=
           <[author_email a :=
               fresh_profile (AuthorProfile (author_name a) (author_email a))]>
             (userData s) |}
  | Some u =>
      if Js.truthy (skip (contributors s) (login u)) then s
      else
        {| contributors := add_to Committers (login u) (contributors s);
           userData :=
             <[login u := fresh_profile (AccountProfile u)]> (userData s) |}
  end.

(** [nodes.filter( x => ! skipUser( x.author.login ) ).forEach( x =>
    contributors[t].add( x.author.login ) )]: the filter has inspected every
    node before the first [add]. *)
Definition filterThenAdd (t : ContributorType) (logins : list string)
  (c : Contributors) : Contributors :=
  fold_left (fun acc x => add_to t x acc)
            (List.filter (fun x => Js.not (skip c x)) logins) c.

(** One iteration of the inner loop over a linked issue's comments. *)
Definition processIssueComment (c : Contributors) (commenter : string)
  : Contributors :=
  if Js.truthy (skip c commenter) then c else add_to Commenters commenter c.

(** One iteration of the loop over [closingIssuesReferences.nodes]. *)
Definition processLinkedIssue (c : Contributors) (i : LinkedIssue)
  : Contributors :=
  let c1 :=
    if Js.not (skip c (issue_author i))
    then add_to Reporters (issue_author i) c
    else c in
  fold_left processIssueComment (issue_comments i) c1.

(** The whole pass when it runs to its end, from the state the module is
    in; [pass] below adds the store that throws. *)
Definition aggregate_from (s : State) (d : ContributorData) : State :=
  let s1 := fold_left processCommit (commits d) s in
  let c2 := filterThenAdd Reviewers (reviews d) (contributors s1) in
  let c3 := filterThenAdd Commenters (comments d) c2 in
  let c4 := fold_left processLinkedIssue (closingIssuesReferences d) c3 in
  {| contributors := c4; userData := userData s1 |}.

End Aggregation.

(** The two generations of the pass. *)
Inductive Pipeline : Type :=
  | IndexJs           (* run, src/index.js with src/utils.js *)
  | ContributorsList. (* getContributorsList *)

Definition skip_of (p : Pipeline) : Contributors -> string -> Js.value :=
  match p with
  | IndexJs => Utils.skipUser
  | ContributorsList => skipUser
  end.

Definition aggregate (p : Pipeline) (d : ContributorData) : State :=
  aggregate_from (skip_of p) initial d.

(** The category sets a key belongs to. *)
Definition memberships (c : Contributors) (k : string)
  : list ContributorType :=
  List.filter (fun t => Js.has (members c t) k) contributorTypes.

(** Emails of the commits without a linked account. *)
Definition unlinked_emails (cs : list GitActor) : list string :=
  omap (fun a => match user a with
                 | None => Some (author_email a)
                 | Some _ => None
                 end) cs.

Definition fallback_emails (d : ContributorData) : list string :=
  unlinked_emails (commits d).

(** Logins of the commits with a linked account. *)
Definition commit_logins (d : ContributorData) : list string :=
  omap (fun a => login <$> user a) (commits d).

(** Keys the commit loop may record, and, for each category, the keys of the
    channels processed before the one that feeds it. *)
Definition commit_keys (d : ContributorData) : list string :=
  commit_logins d ++ fallback_emails d.

Definition issue_authors (d : ContributorData) : list string :=
  List.map issue_author (closingIssuesReferences d).

Definition issue_commenters (d : ContributorData) : list string :=
  List.concat (List.map issue_comments (closingIssuesReferences d)).

(** The channel that feeds each category. *)
Definition channel (d : ContributorData) (t : ContributorType)
  : list string :=
  match t with
  | Committers => commit_keys d
  | Reviewers => reviews d
  | Commenters => comments d ++ issue_commenters d
  | Reporters => issue_authors d
  end.

Definition earlier_channels (d : ContributorData) (t : ContributorType)
  : list string :=
  match t with
  | Committers => []
  | Reviewers => commit_keys d
  | Commenters => commit_keys d ++ reviews d
  | Reporters => commit_keys d ++ reviews d ++ comments d
  end.

(** ** Reconciliation *)

(** The directory lookup's answer for one login: a record with a [slug], or
    the literal [false]. *)
Inductive DirectoryEntry : Type :=
  | Linked (slug : string)
  | NotLinked.

(** [[ ...reviewers, ...commenters, ...reporters ]] *)
Definition others (c : Contributors) : list string :=
  reviewers c ++ commenters c ++ reporters c.

(** [githubUsers]: every member of every set, in the order of
    [Object.keys( contributors )]. *)
Definition githubUsers (c : Contributors) : list string :=
  committers c ++ reviewers c ++ commenters c ++ reporters c.

(** [userData] is an array object.  Its own [length] cannot be assigned an
    object: [userData[ "length" ] = x] throws a [RangeError].  Every other
    key a login or an email can be names an ordinary own property (a store
    at ["__proto__"], which would replace the prototype instead, is left
    out of the model). *)
Definition Array_length (k : string) : bool := String.eqb k "length".

(** Names an array answers without an own entry: its [length], and the
    properties of [Array.prototype] and [Object.prototype] (ECMAScript
    2023, the runtime of the action). *)
Definition Array_prototype_names : list string :=
  ["length"; "constructor"; "at"; "concat"; "copyWithin"; "entries"; "every";
   "fill"; "filter"; "find"; "findIndex"; "findLast"; "findLastIndex";
   "flat"; "flatMap"; "forEach"; "includes"; "indexOf"; "join"; "keys";
   "lastIndexOf"; "map"; "pop"; "push"; "reduce"; "reduceRight"; "reverse";
   "shift"; "slice"; "some"; "sort"; "splice"; "toLocaleString";
   "toReversed"; "toSorted"; "toSpliced"; "toString"; "unshift"; "values";
   "with"; "hasOwnProperty"; "isPrototypeOf"; "propertyIsEnumerable";
   "valueOf"; "__proto__"; "__defineGetter__"; "__defineSetter__";
   "__lookupGetter__"; "__lookupSetter__"].

Definition Array_answers (k : string) : bool := Js.has Array_prototype_names k.

(** How the pass ends: at its end, or in the [RangeError] of a [userData]
    store, each with the module state at that point. *)
Inductive Pass : Type :=
  | Completed (s : State)
  | RangeError (s : State).

Definition pass_state (r : Pass) : State :=
  match r with
  | Completed s => s
  | RangeError s => s
  end.

(** The key under which an iteration of the commit loop stores a profile,
    when it gets that far. *)
Definition stored_key (skip : Contributors -> string -> Js.value)
  (s : State) (a : GitActor) : option string :=
  match user a with
  | None => Some (author_email a)
  | Some u =>
      if Js.truthy (skip (contributors s) (login u)) then None
      else Some (login u)
  end.

(** The loop over [commits.nodes]: an iteration that stores under
    ["length"] has added the key to [committers] when the store throws. *)
Fixpoint commitLoop (skip : Contributors -> string -> Js.value)
  (cs : list GitActor) (s : State) : Pass :=
  match cs with
  | [] => Completed s
  | a :: rest =>
      match stored_key skip s a with
      | Some k =>
          if Array_length k
          then RangeError
                 {| contributors := add_to Committers k (contributors s);
                    userData := userData s |}
          else commitLoop skip rest (processCommit skip s a)
      | None => commitLoop skip rest (processCommit skip s a)
      end
  end.

(** Reviews, comments and linked issues, after the commit loop. *)
Definition afterCommits (skip : Contributors -> string -> Js.value)
  (d : ContributorData) (s1 : State) : State :=
  let c2 := filterThenAdd skip Reviewers (reviews d) (contributors s1) in
  let c3 := filterThenAdd skip Commenters (comments d) c2 in
  let c4 :=
    fold_left (processLinkedIssue skip) (closingIssuesReferences d) c3 in
  {| contributors := c4; userData := userData s1 |}.

(** The pass as the code runs it. *)
Definition pass (skip : Contributors -> string -> Js.value) (s : State)
  (d : ContributorData) : Pass :=
  match commitLoop skip (commits d) s with
  | Completed s1 => Completed (afterCommits skip d s1)
  | RangeError s' => RangeError s'
  end.

(** The records of a response stored one after another, when no store
    throws. *)
Definition store_records (response : list User)
  (table : gmap string Profile) : gmap string Profile :=
  fold_left (fun acc u => <[login u := fresh_profile (AccountProfile u)]> acc)
            response table.

(** [Object.values( contributorData ).forEach( user => { userData[
    user.login ] = user } )] of [getContributorsList]: the table when the
    loop ends, and whether it ended in the [RangeError] of a record whose
    login is ["length"]. *)
Fixpoint backfill (response : list User) (table : gmap string Profile)
  : gmap string Profile * bool :=
  match response with
  | [] => (table, false)
  | u :: rest =>
      if Array_length (login u) then (table, true)
      else backfill rest (<[login u := fresh_profile (AccountProfile u)]> table)
  end.

(** The directory merge: for every key of [userData] that the answer maps to
    a record, the slug is stored as [dotOrg]. *)
Definition mergeDirectory (wpOrgData : gmap string DirectoryEntry)
  (table : gmap string Profile) : gmap string Profile :=
  map_imap (fun contributor p =>
              Some match wpOrgData !! contributor with
                   | Some (Linked slug) =>
                       {| profile_data := profile_data p;
                          dotOrg := Some slug |}
                   | _ => p
                   end) table.

(** ** Rendering *)

Definition newline : string := String (ascii_of_nat 10) EmptyString.

(** [char.toUpperCase()] on the first character of a type name. *)
Definition toUpperCase (c : ascii) : ascii :=
  let n := nat_of_ascii c in
  if ((97 <=? n) && (n <=? 122))%bool%nat then ascii_of_nat (n - 32) else c.

(** [priority.replace( /^./, char => char.toUpperCase() )] *)
Definition capitalize (s : string) : string :=
  match s with
  | EmptyString => EmptyString
  | String c rest => String (toUpperCase c) rest
  end.

Definition header (priority : ContributorType) : string :=
  "# " +:+ capitalize (typeName priority) +:+ newline.

Definition trailer (username handle : string) : string :=
  "Co-authored-by: " +:+ username +:+ " <" +:+ handle
  +:+ "@git.wordpress.org>".

(** The renderer runs over the local array [unconnectedUsers] and throws a
    [TypeError] when it destructures a missing [userData] entry: a state and
    error monad over that array. *)
Definition Render (A : Type) : Type :=
  list string -> option (A * list string).

Definition ret {A : Type} (a : A) : Render A := fun u => Some (a, u).

Definition bind {A B : Type} (m : Render A) (f : A -> Render B) : Render B :=
  fun u => match m u with
           | Some (a, u') => f a u'
           | None => None
           end.

Definition throwTypeError {A : Type} : Render A := fun _ => None.

Definition push (username : string) : Render unit :=
  fun u => Some (tt, u ++ [username]).

Notation "'let*' x := m 'in' k" := (bind m (fun x => k))
  (at level 10, x name, m at level 100, k at level 200, only parsing).

Fixpoint mapM {A B : Type} (f : A -> Render B) (xs : list A)
  : Render (list B) :=
  match xs with
  | [] => ret []
  | x :: rest => let* y := f x in let* ys := mapM f rest in ret (y :: ys)
  end.

(** The callback of the inner [map]: a trailer line, or [undefined] after
    pushing the user on [unconnectedUsers].  Without an own entry,
    [userData[ username ]] is [undefined], and destructuring it throws,
    unless the array answers the name itself: that value has no [dotOrg]. *)
Definition propsEntry (table : gmap string Profile) (username : string)
  : Render (option string) :=
  match table !! username with
  | None =>
      if Array_answers username
      then let* done := push username in ret None
      else throwTypeError
  | Some p =>
      match dotOrg p with
      | None => let* done := push username in ret None
      | Some handle => ret (Some (trailer username handle))
      end
  end.

(** The callback of the outer [map].  The guard reads [length] of a [Set];
    its [return []] would be written by [join] as the empty string. *)
Definition propsSection (c : Contributors) (table : gmap string Profile)
  (priority : ContributorType) : Render string :=
  if Js.strict_eq_zero (Js.Set_length (members c priority)) then ret ""
  else
    let* entries := mapM (propsEntry table) (members c priority) in
    ret (header priority +:+ Js.join newline entries).

Definition render (c : Contributors) (table : gmap string Profile)
  : Render string :=
  let* sections := mapM (propsSection c table) contributorTypes in
  ret (Js.join (newline +:+ newline) (Some <$> sections)).

(** ** The two pipelines *)

(** The external collaborators: the contribution query, the batched profile
    request and the directory lookup. *)
Record Services : Type := {
  getContributorData : ContributorData;
  getUsersData : list string -> list User;
  getWPOrgData : list string -> gmap string DirectoryEntry
}.

(** The requests an invocation sends, in the order it sends them. *)
Inductive Call : Type :=
  | ContributorQuery
  | ProfileRequest (logins : list string)
  | DirectoryLookup (users : list string).

(** How an invocation ends: a returned string, a returned [undefined], the
    [TypeError] of the renderer, or the [RangeError] of a [userData]
    store. *)
Inductive Outcome : Type :=
  | Returned (text : option string)
  | Threw
  | ThrewRangeError.

(** What an invocation leaves behind: the requests sent, the module state,
    the renderer's [unconnectedUsers] array and the way it ended. *)
Record Run : Type := {
  calls : list Call;
  final : State;
  unconnectedUsers : list string;
  outcome : Outcome
}.

(** The tail both pipelines share: the renderer runs on the merged table
    with an empty [unconnectedUsers]. *)
Definition finish (made : list Call) (c : Contributors)
  (table : gmap string Profile) : Run :=
  match render c table [] with
  | Some (text, unconnected) =>
      {| calls := made; final := {| contributors := c; userData := table |};
         unconnectedUsers := unconnected; outcome := Returned (Some text) |}
  | None =>
      {| calls := made; final := {| contributors := c; userData := table |};
         unconnectedUsers := []; outcome := Threw |}
  end.

(** An invocation cut short by the [RangeError] of a store. *)
Definition stopped (made : list Call) (s : State) : Run :=
  {| calls := made; final := s; unconnectedUsers := [];
     outcome := ThrewRangeError |}.

(** The backfill block of [getContributorsList]: the request is made, and
    its answer stored, only when some set other than [committers] has a
    member.  The result is the calls made, the table afterwards and whether
    a store threw. *)
Definition backfillStep (sv : Services) (s1 : State)
  : list Call * (gmap string Profile * bool) :=
  let c := contributors s1 in
  if (0 <? length (others c))%nat
  then ([ProfileRequest (others c)],
        backfill (getUsersData sv (others c)) (userData s1))
  else ([], (userData s1, false)).

(** The same block in [run] of src/index.js.  Inside it [const userData] is
    the response of the request, a plain object: the loop writes into that
    object, and the module-level table is left as it was. *)
Definition run_backfillStep (sv : Services) (s1 : State)
  : list Call * gmap string Profile :=
  let c := contributors s1 in
  if (0 <? length (others c))%nat
  then ([ProfileRequest (others c)], userData s1)
  else ([], userData s1).

(** [getContributorsList] once the pass has completed in state [s1]. *)
Definition afterPass (sv : Services) (s1 : State) : Run :=
  let c := contributors s1 in
  let made := ContributorQuery :: fst (backfillStep sv s1) in
  let table := fst (snd (backfillStep sv s1)) in
  if snd (snd (backfillStep sv s1))
  then stopped made {| contributors := c; userData := table |}
  else if (length (githubUsers c) =? 0)%nat
  then {| calls := made; final := {| contributors := c; userData := table |};
          unconnectedUsers := []; outcome := Returned None |}
  else
    finish (made ++ [DirectoryLookup (githubUsers c)]) c
           (mergeDirectory (getWPOrgData sv (githubUsers c)) table).

(** [getContributorsList], from the module state [s]. *)
Definition getContributorsList (sv : Services) (s : State) : Run :=
  match pass skipUser s (getContributorData sv) with
  | RangeError s' => stopped [ContributorQuery] s'
  | Completed s1 => afterPass sv s1
  end.

(** [run] of src/index.js once the pass has completed in state [s1]: there
    is no early return before the directory lookup. *)
Definition run_afterPass (sv : Services) (s1 : State) : Run :=
  let c := contributors s1 in
  let made := ContributorQuery :: fst (run_backfillStep sv s1) in
  let table := snd (run_backfillStep sv s1) in
  finish (made ++ [DirectoryLookup (githubUsers c)]) c
         (mergeDirectory (getWPOrgData sv (githubUsers c)) table).

(** [run] of src/index.js, from the module state [s]. *)
Definition run (sv : Services) (s : State) : Run :=
  match pass Utils.skipUser s (getContributorData sv) with
  | RangeError s' => stopped [ContributorQuery] s'
  | Completed s1 => run_afterPass sv s1
  end.

Definition pipeline (p : Pipeline) : Services -> State -> Run :=
  match p with
  | IndexJs => run
  | ContributorsList => getContributorsList
  end.

(** Two invocations in one process: the module-level state the first one
    leaves is the state the second one starts from. *)
Definition second_run (p : Pipeline) (sv1 sv2 : Services) : Run :=
  pipeline p sv2 (final (pipeline p sv1 initial)).

(** * Proofs *)

(** ** The sanitizer *)

Lemma replace_class_length (s : string) :
  String.length (replace_class s) = String.length s.
Proof. induction s as [|c s IH]; simpl; congruence. Qed.

Lemma replace_class_get (s : string) (i : nat) :
  String.get i (replace_class s)
  = (fun c => if in_class c then "_"%char else c) <$> String.get i s.
Proof.
  revert i; induction s as [|c s IH]; intros [|i]; simpl; auto.
Qed.

Lemma in_class_not_alnum (c : ascii) :
  in_class c = true -> is_letter_or_digit c = false.
Proof.
  unfold in_class. rewrite !orb_true_iff, !Ascii.eqb_eq.
  intros [[->| ->]| ->]; reflexivity.
Qed.

Lemma char_agrees_iff (c : ascii) :
  (if in_class c then "_"%char else c)
  = (if is_letter_or_digit c then c else "_"%char)
  <-> plain_char c = true.
Proof.
  unfold plain_char.
  destruct (in_class c) eqn:Hc.
  - rewrite (in_class_not_alnum c Hc). simpl. tauto.
  - destruct (is_letter_or_digit c); simpl; [tauto|].
    rewrite Ascii.eqb_eq. split; congruence.
Qed.

Lemma body_agrees_iff (s : string) :
  replace_class s = sanitize_policy_body s <-> plain s = true.
Proof.
  induction s as [|c s IH]; simpl; [tauto|].
  rewrite andb_true_iff, <- IH, <- char_agrees_iff.
  split; [intros [= H1 H2]; auto | intros [-> ->]; reflexivity].
Qed.

(** The claim of the specification, word for word: the sanitizer is the
    letters-and-digits policy on every input. *)
Definition sanitizer_follows_policy : Prop :=
  forall s : string, escapeForGql s = sanitize_policy s.

(** C7, counterexample.  On the login ["dependabot[bot]"] the brackets are
    outside letters and digits, yet [escapeForGql] keeps them: only the
    characters of the class [[./-]] are replaced. *)
Lemma escapeForGql_keeps_brackets :
  escapeForGql "dependabot[bot]" = "_dependabot[bot]"
  /\ sanitize_policy "dependabot[bot]" = "_dependabot_bot_"
  /\ ~ sanitizer_follows_policy.
Proof.
  split; [reflexivity|]. split; [reflexivity|].
  intros H. specialize (H "dependabot[bot]"). discriminate H.
Qed.

(** C7, as amended.  [escapeForGql] is total; its result is the input with a
    leading ['_'] and with every ['.'], ['/'] and ['-'] replaced by ['_'],
    every other character kept in place; it sends ["foo.bar-baz"] to
    ["_foo_bar_baz"]; and it coincides with the letters-and-digits policy
    exactly on the inputs whose other characters are all among ['.'], ['/'],
    ['-'] and ['_']. *)
Theorem escapeForGql_spec :
  escapeForGql "foo.bar-baz" = "_foo_bar_baz"
  /\ (forall s, String.get 0 (escapeForGql s) = Some "_"%char)
  /\ (forall s, String.length (escapeForGql s) = S (String.length s))
  /\ (forall s i,
        String.get (S i) (escapeForGql s)
        = (fun c => if in_class c then "_"%char else c) <$> String.get i s)
  /\ (forall s, escapeForGql s = sanitize_policy s <-> plain s = true).
Proof.
  split; [reflexivity|]. split; [reflexivity|].
  split; [intros s; unfold escapeForGql; simpl; f_equal; apply replace_class_length|].
  split; [intros s i; simpl; apply replace_class_get|].
  intros s. unfold escapeForGql, sanitize_policy. simpl.
  rewrite <- body_agrees_iff. split; [intros [= H]; exact H | congruence].
Qed.

(** ** Sets of strings kept in insertion order *)

Lemma has_In (s : list string) (x : string) : Js.has s x = true <-> In x s.
Proof.
  unfold Js.has. rewrite existsb_exists. split.
  - intros (y & Hy & E). apply String.eqb_eq in E. now subst.
  - intros H. exists x. split; [exact H | apply String.eqb_refl].
Qed.

Lemma has_app (s1 s2 : list string) (x : string) :
  Js.has (s1 ++ s2) x = (Js.has s1 x || Js.has s2 x)%bool.
Proof. unfold Js.has. apply existsb_app. Qed.

Lemma has_add (s : list string) (x y : string) :
  Js.has (Js.add s x) y = (Js.has s y || String.eqb y x)%bool.
Proof.
  unfold Js.add. destruct (Js.has s x) eqn:Hx.
  - destruct (String.eqb_spec y x) as [->|_].
    + rewrite Hx. reflexivity.
    + now rewrite orb_false_r.
  - rewrite has_app. simpl. now rewrite orb_false_r.
Qed.

Lemma add_has_id (s : list string) (x : string) :
  Js.has s x = true -> Js.add s x = s.
Proof. unfold Js.add. now intros ->. Qed.

Lemma add_NoDup (s : list string) (x : string) :
  NoDup s -> NoDup (Js.add s x).
Proof.
  intros Hs. unfold Js.add. destruct (Js.has s x) eqn:Hx; [exact Hs|].
  apply NoDup_app. split; [exact Hs|]. split.
  - intros y Hy Hy'. apply list_elem_of_In in Hy, Hy'.
    destruct Hy' as [<-|[]]. apply has_In in Hy. congruence.
  - apply NoDup_singleton.
Qed.

(** ** Membership in the category sets *)

#[local] Instance ContributorType_eq_dec : EqDecision ContributorType.
Proof. solve_decision. Defined.

#[local] Instance Pipeline_eq_dec : EqDecision Pipeline.
Proof. solve_decision. Defined.

Definition mem (c : Contributors) (t : ContributorType) (k : string) : bool :=
  Js.has (members c t) k.

Definition absent (c : Contributors) (k : string) : Prop :=
  forall t, mem c t k = false.

Definition at_most_one (c : Contributors) (k : string) : Prop :=
  forall t1 t2, mem c t1 k = true -> mem c t2 k = true -> t1 = t2.

Lemma mem_add_to (t t' : ContributorType) (x k : string) (c : Contributors) :
  mem (add_to t x c) t' k
  = (mem c t' k || (bool_decide (t = t') && String.eqb k x))%bool.
Proof.
  unfold mem. destruct t, t'; simpl; rewrite ?has_add, ?orb_false_r;
    reflexivity.
Qed.

Lemma add_to_present (t : ContributorType) (x : string) (c : Contributors) :
  mem c t x = true -> add_to t x c = c.
Proof.
  unfold mem. destruct c, t; simpl; intros H; rewrite (add_has_id _ _ H);
    reflexivity.
Qed.

Lemma memberships_In (c : Contributors) (k : string) (t : ContributorType) :
  In t (memberships c k) <-> mem c t k = true.
Proof.
  unfold memberships. rewrite filter_In. unfold mem, contributorTypes.
  split; [tauto|]. intros H. split; [|exact H].
  destruct t; simpl; tauto.
Qed.

Lemma memberships_nil (c : Contributors) (k : string) :
  memberships c k = [] <-> absent c k.
Proof.
  split.
  - intros H t. destruct (mem c t k) eqn:E; [|reflexivity].
    apply memberships_In in E. rewrite H in E. destruct E.
  - intros H. unfold memberships, contributorTypes. simpl.
    pose proof (H Committers) as H1. pose proof (H Reviewers) as H2.
    pose proof (H Commenters) as H3. pose proof (H Reporters) as H4.
    unfold mem in *. simpl in *. now rewrite H1, H2, H3, H4.
Qed.

Lemma memberships_at_most_one (c : Contributors) (k : string) :
  length (memberships c k) <= 1 <-> at_most_one c k.
Proof.
  split.
  - intros H t1 t2 H1 H2. revert H.
    unfold memberships, contributorTypes. unfold mem in H1, H2.
    destruct t1, t2; simpl in *; try reflexivity; rewrite ?H1, ?H2;
      repeat (match goal with |- context [if ?b then _ else _] =>
                destruct b end); simpl; lia.
  - intros H. unfold memberships, contributorTypes. simpl.
    destruct (Js.has (committers c) k) eqn:E1;
    destruct (Js.has (reviewers c) k) eqn:E2;
    destruct (Js.has (commenters c) k) eqn:E3;
    destruct (Js.has (reporters c) k) eqn:E4; simpl; try lia; exfalso.
    all: try (specialize (H Committers Reviewers E1 E2); discriminate).
    all: try (specialize (H Committers Commenters E1 E3); discriminate).
    all: try (specialize (H Committers Reporters E1 E4); discriminate).
    all: try (specialize (H Reviewers Commenters E2 E3); discriminate).
    all: try (specialize (H Reviewers Reporters E2 E4); discriminate).
    all: try (specialize (H Commenters Reporters E3 E4); discriminate).
Qed.

Lemma memberships_ext (c c' : Contributors) (k : string) :
  (forall t, mem c' t k = mem c t k) -> memberships c' k = memberships c k.
Proof.
  intros H. unfold memberships, contributorTypes. simpl.
  pose proof (H Committers) as H1. pose proof (H Reviewers) as H2.
  pose proof (H Commenters) as H3. pose proof (H Reporters) as H4.
  unfold mem in *. simpl in *. now rewrite H1, H2, H3, H4.
Qed.

Lemma absent_dec (c : Contributors) (k : string) :
  absent c k \/ exists t, mem c t k = true.
Proof.
  destruct (memberships c k) as [|t l] eqn:E.
  - left. now apply memberships_nil.
  - right. exists t. apply memberships_In. rewrite E. now left.
Qed.

(** ** What a step of the pass may do to a key

    [settled k c c']: from [c] to [c'] the key [k] keeps every membership it
    had; when it had one it gains none; when it had none it ends in at most
    one set. *)
Definition settled (k : string) (c c' : Contributors) : Prop :=
  (forall t, mem c t k = true -> mem c' t k = true)
  /\ ((exists t, mem c t k = true) -> forall t, mem c' t k = mem c t k)
  /\ (absent c k -> at_most_one c' k).

Lemma settled_same (k : string) (c c' : Contributors) :
  (forall t, mem c' t k = mem c t k) -> settled k c c'.
Proof.
  intros H. split; [|split].
  - intros t. now rewrite H.
  - intros _. exact H.
  - intros Ha t1 t2. rewrite !H, Ha. discriminate.
Qed.

Lemma settled_refl (k : string) (c : Contributors) : settled k c c.
Proof. now apply settled_same. Qed.

Lemma settled_trans (k : string) (c1 c2 c3 : Contributors) :
  settled k c1 c2 -> settled k c2 c3 -> settled k c1 c3.
Proof.
  intros (M1 & P1 & A1) (M2 & P2 & A2). split; [|split].
  - intros t H. auto.
  - intros [t0 H0] t. rewrite <- (P1 (ex_intro _ t0 H0)).
    apply P2. exists t0. auto.
  - intros Ha. destruct (absent_dec c2 k) as [Hb|Hp]; [auto|].
    intros t1 t2. rewrite !(P2 Hp). now apply A1.
Qed.

Lemma settled_add_other (k x : string) (t : ContributorType)
  (c : Contributors) :
  k <> x -> settled k c (add_to t x c).
Proof.
  intros Hne. apply settled_same. intros t'. rewrite mem_add_to.
  destruct (String.eqb_spec k x); [contradiction|].
  now rewrite andb_false_r, orb_false_r.
Qed.

Lemma settled_add_absent (k x : string) (t : ContributorType)
  (c : Contributors) :
  absent c x -> settled k c (add_to t x c).
Proof.
  intros Hx. destruct (String.eqb_spec k x) as [->|Hne];
    [|now apply settled_add_other].
  split; [|split].
  - intros t'. now rewrite Hx.
  - intros [t' H']. rewrite Hx in H'. discriminate.
  - intros _ t1 t2. rewrite !mem_add_to, !Hx, String.eqb_refl. simpl.
    rewrite !andb_true_r. intros E1%bool_decide_eq_true E2%bool_decide_eq_true.
    congruence.
Qed.

Lemma settled_fold {A : Type} (k : string)
  (step : Contributors -> A -> Contributors) (xs : list A) :
  (forall c x, In x xs -> settled k c (step c x)) ->
  forall c, settled k c (fold_left step xs c).
Proof.
  induction xs as [|x xs IH]; intros H c; simpl; [apply settled_refl|].
  eapply settled_trans; [apply H; now left|].
  apply IH. intros c' y Hy. apply H. now right.
Qed.

Section AggregationProofs.

Variable skip : Contributors -> string -> Js.value.

(** What both generations of [skipUser] guarantee when they let a login
    through. *)
Hypothesis skip_sound :
  forall c u, Js.truthy (skip c u) = false ->
              ~ In u skippedUsers /\ absent c u.

Lemma kept_absent (c : Contributors) (logins : list string) (x : string) :
  In x (List.filter (fun x => Js.not (skip c x)) logins) ->
  In x logins /\ ~ In x skippedUsers /\ absent c x.
Proof.
  rewrite filter_In. unfold Js.not. rewrite negb_true_iff.
  intros [H1 H2]. split; [exact H1|]. now apply skip_sound.
Qed.

Lemma fold_add_mem (t t' : ContributorType) (xs : list string) (k : string) :
  forall c,
    mem (fold_left (fun acc x => add_to t x acc) xs c) t' k
    = (mem c t' k || (bool_decide (t = t') && Js.has xs k))%bool.
Proof.
  induction xs as [|x xs IH]; intros c; simpl.
  - now rewrite andb_false_r, orb_false_r.
  - rewrite IH, mem_add_to. destruct (bool_decide (t = t')); simpl.
    + now rewrite orb_assoc.
    + now rewrite !orb_false_r.
Qed.

Lemma filterThenAdd_mem (t t' : ContributorType) (logins : list string)
  (c : Contributors) (k : string) :
  mem (filterThenAdd skip t logins c) t' k
  = (mem c t' k
     || (bool_decide (t = t')
         && Js.has (List.filter (fun x => Js.not (skip c x)) logins) k))%bool.
Proof. unfold filterThenAdd. apply fold_add_mem. Qed.

Lemma filterThenAdd_settled (k : string) (t : ContributorType)
  (logins : list string) (c : Contributors) :
  settled k c (filterThenAdd skip t logins c).
Proof.
  destruct (Js.has (List.filter (fun x => Js.not (skip c x)) logins) k)
    eqn:Hk.
  - apply has_In, kept_absent in Hk. destruct Hk as (_ & _ & Hk).
    split; [|split].
    + intros t'. now rewrite Hk.
    + intros [t' H']. rewrite Hk in H'. discriminate.
    + intros _ t1 t2. rewrite !filterThenAdd_mem, !Hk. simpl.
      intros [E1 _]%andb_true_iff [E2 _]%andb_true_iff.
      apply bool_decide_eq_true in E1, E2. congruence.
  - apply settled_same. intros t'. rewrite filterThenAdd_mem, Hk.
    now rewrite andb_false_r, orb_false_r.
Qed.

Lemma processIssueComment_settled (k x : string) (c : Contributors) :
  settled k c (processIssueComment skip c x).
Proof.
  unfold processIssueComment. destruct (Js.truthy (skip c x)) eqn:E.
  - apply settled_refl.
  - apply settled_add_absent. now apply skip_sound.
Qed.

Lemma processLinkedIssue_settled (k : string) (i : LinkedIssue)
  (c : Contributors) :
  settled k c (processLinkedIssue skip c i).
Proof.
  unfold processLinkedIssue. eapply settled_trans.
  2: { apply settled_fold. intros c' x _. apply processIssueComment_settled. }
  unfold Js.not. destruct (Js.truthy (skip c (issue_author i))) eqn:E;
    cbn [negb].
  - apply settled_refl.
  - apply settled_add_absent. now apply skip_sound.
Qed.

Lemma processCommit_settled (k : string) (a : GitActor) (s : State) :
  (user a = None -> k <> author_email a) ->
  settled k (contributors s) (contributors (processCommit skip s a)).
Proof.
  intros Hk. unfold processCommit. destruct (user a) as [u|].
  - destruct (Js.truthy (skip (contributors s) (login u))) eqn:E.
    + apply settled_refl.
    + apply settled_add_absent. now apply skip_sound.
  - cbn [contributors]. apply settled_add_other. now apply Hk.
Qed.

Lemma commits_settled (k : string) (cs : list GitActor) :
  (forall a, In a cs -> user a = None -> k <> author_email a) ->
  forall s, settled k (contributors s)
                    (contributors (fold_left (processCommit skip) cs s)).
Proof.
  induction cs as [|a cs IH]; intros H s; simpl; [apply settled_refl|].
  eapply settled_trans.
  - apply processCommit_settled. apply H. now left.
  - apply IH. intros b Hb. apply H. now right.
Qed.

Lemma after_commits_settled (k : string) (d : ContributorData)
  (s : State) :
  settled k (contributors (fold_left (processCommit skip) (commits d) s))
            (contributors (aggregate_from skip s d)).
Proof.
  unfold aggregate_from. simpl.
  eapply settled_trans; [apply filterThenAdd_settled|].
  eapply settled_trans; [apply filterThenAdd_settled|].
  apply settled_fold. intros c i _. apply processLinkedIssue_settled.
Qed.

Lemma fallback_emails_In (d : ContributorData) (k : string) :
  In k (fallback_emails d)
  <-> exists a, In a (commits d) /\ user a = None /\ author_email a = k.
Proof.
  unfold fallback_emails, unlinked_emails.
  rewrite <- list_elem_of_In, list_elem_of_omap. split.
  - intros (a & Ha & E). exists a. apply list_elem_of_In in Ha.
    destruct (user a); [discriminate|]. injection E as <-. auto.
  - intros (a & Ha & Hu & <-). exists a. rewrite list_elem_of_In, Hu. auto.
Qed.

(** From any state, the pass settles every key that is not the email of a
    commit without an account. *)
Lemma aggregate_settled (k : string) (d : ContributorData) (s : State) :
  ~ In k (fallback_emails d) ->
  settled k (contributors s) (contributors (aggregate_from skip s d)).
Proof.
  intros Hk. eapply settled_trans; [|apply after_commits_settled].
  apply commits_settled. intros a Ha Hu ->. apply Hk.
  apply fallback_emails_In. eauto.
Qed.

(** The commit loop touches [committers] only. *)
Lemma processCommit_others (t : ContributorType) (a : GitActor) (s : State) :
  t <> Committers ->
  members (contributors (processCommit skip s a)) t
  = members (contributors s) t.
Proof.
  intros Ht. unfold processCommit. destruct (user a) as [u|].
  - destruct (Js.truthy _); [reflexivity|]. destruct t; simpl; congruence.
  - destruct t; simpl; congruence.
Qed.

Lemma commits_others (t : ContributorType) (cs : list GitActor) :
  t <> Committers ->
  forall s, members (contributors (fold_left (processCommit skip) cs s)) t
            = members (contributors s) t.
Proof.
  intros Ht. induction cs as [|a cs IH]; intros s; simpl; [reflexivity|].
  now rewrite IH, processCommit_others.
Qed.

(** A fresh run: every key, the fallback emails included, ends in at most
    one set. *)
Lemma aggregate_initial_at_most_one (k : string) (d : ContributorData) :
  at_most_one (contributors (aggregate_from skip initial d)) k.
Proof.
  pose proof (after_commits_settled k d initial) as (M & P & A).
  set (s1 := fold_left (processCommit skip) (commits d) initial) in *.
  assert (H1 : at_most_one (contributors s1) k).
  { intros t1 t2. unfold mem.
    destruct (decide (t1 = Committers)) as [->|N1];
      [|unfold s1; rewrite (commits_others _ _ N1); destruct t1; discriminate].
    destruct (decide (t2 = Committers)) as [->|N2];
      [|unfold s1; rewrite (commits_others _ _ N2); destruct t2; discriminate].
    reflexivity. }
  destruct (absent_dec (contributors s1) k) as [Ha|Hp]; [auto|].
  intros t1 t2. rewrite !(P Hp). apply H1.
Qed.

End AggregationProofs.

(** ** The two generations of [skipUser] *)

Lemma alreadyPresent_loop_truthy (c : Contributors) (u : string)
  (types : list ContributorType) :
  Js.truthy (alreadyPresent_loop c u types)
  = existsb (fun t => mem c t u) types.
Proof.
  induction types as [|t ts IH]; simpl; [reflexivity|].
  unfold mem at 1. destruct (Js.has (members c t) u); simpl; auto.
Qed.

Lemma alreadyPresent_truthy (c : Contributors) (u : string) :
  Js.truthy (contributorAlreadyPresent c u) = true
  <-> exists t, mem c t u = true.
Proof.
  unfold contributorAlreadyPresent.
  rewrite alreadyPresent_loop_truthy, existsb_exists. split.
  - intros (t & _ & H). eauto.
  - intros (t & H). exists t. split; [|exact H].
    unfold contributorTypes. destruct t; simpl; tauto.
Qed.

Lemma indexOf_skipped (u : string) :
  (Js.indexOf skippedUsers u =? -1)%Z = true <-> ~ In u skippedUsers.
Proof.
  unfold Js.indexOf, skippedUsers. cbn [Js.indexOf_from].
  destruct (String.eqb_spec "github-actions" u) as [<-|Hne].
  - split; [discriminate|]. intros H. exfalso. apply H. now left.
  - split; [|reflexivity]. intros _ [E|[]]. congruence.
Qed.

(** The synchronous [skipUser] answers [false] exactly for a login that is
    neither excluded nor already in a set. *)
Lemma skipUser_false_iff (c : Contributors) (u : string) :
  Js.truthy (skipUser c u) = false <-> ~ In u skippedUsers /\ absent c u.
Proof.
  unfold skipUser.
  destruct (Js.indexOf skippedUsers u =? -1)%Z eqn:Ei; simpl.
  - apply indexOf_skipped in Ei. unfold Js.not.
    destruct (Js.truthy (contributorAlreadyPresent c u)) eqn:Ep; simpl.
    + apply alreadyPresent_truthy in Ep as [t Ht].
      split; [discriminate|]. intros [_ Ha]. rewrite Ha in Ht. discriminate.
    + split; [|reflexivity]. intros _. split; [exact Ei|].
      intros t. destruct (mem c t u) eqn:Et; [|reflexivity].
      assert (Js.truthy (contributorAlreadyPresent c u) = true)
        by (apply alreadyPresent_truthy; eauto). congruence.
  - split; [discriminate|]. intros [Hn _]. apply indexOf_skipped in Hn.
    congruence.
Qed.

(** The [async] one hands its caller a promise, which every condition takes
    for [true]. *)
Lemma Utils_skipUser_truthy (c : Contributors) (u : string) :
  Js.truthy (Utils.skipUser c u) = true.
Proof. reflexivity. Qed.

Lemma skip_of_sound (p : Pipeline) (c : Contributors) (u : string) :
  Js.truthy (skip_of p c u) = false -> ~ In u skippedUsers /\ absent c u.
Proof.
  destruct p; simpl.
  - discriminate.
  - apply skipUser_false_iff.
Qed.

(** ** [run] of src/index.js records no login *)

Lemma filter_none {A : Type} (f : A -> bool) (xs : list A) :
  (forall x, f x = false) -> List.filter f xs = [].
Proof.
  intros H. induction xs as [|x xs IH]; simpl; [reflexivity|].
  now rewrite H.
Qed.

Lemma fold_left_id {A B : Type} (f : A -> B -> A) (xs : list B) (a : A) :
  (forall a x, f a x = a) -> fold_left f xs a = a.
Proof.
  intros H. revert a. induction xs as [|x xs IH]; intros a; simpl;
    [reflexivity|]. now rewrite H.
Qed.

Lemma IndexJs_after_commits (s : State) (d : ContributorData) :
  contributors (aggregate_from Utils.skipUser s d)
  = contributors (fold_left (processCommit Utils.skipUser) (commits d) s).
Proof.
  unfold aggregate_from. cbn [contributors]. unfold filterThenAdd.
  rewrite !(filter_none (fun x => Js.not (Utils.skipUser _ x)))
    by reflexivity.
  simpl. apply fold_left_id. intros c i. unfold processLinkedIssue.
  cbn [Js.not Js.truthy Utils.skipUser negb].
  apply fold_left_id. reflexivity.
Qed.

Lemma IndexJs_others (t : ContributorType) (s : State) (d : ContributorData) :
  t <> Committers ->
  members (contributors (aggregate_from Utils.skipUser s d)) t
  = members (contributors s) t.
Proof.
  intros Ht. rewrite IndexJs_after_commits. now apply commits_others.
Qed.

Lemma IndexJs_commit_login (s : State) (a : GitActor) :
  user a <> None -> processCommit Utils.skipUser s a = s.
Proof.
  unfold processCommit. destruct (user a); [reflexivity|congruence].
Qed.

(** ** Sets only grow *)

Definition grows (c c' : Contributors) : Prop :=
  forall t k, mem c t k = true -> mem c' t k = true.

Lemma grows_refl (c : Contributors) : grows c c.
Proof. intros t k H. exact H. Qed.

Lemma grows_trans (c1 c2 c3 : Contributors) :
  grows c1 c2 -> grows c2 c3 -> grows c1 c3.
Proof. intros H1 H2 t k H. auto. Qed.

Lemma grows_add (t : ContributorType) (x : string) (c : Contributors) :
  grows c (add_to t x c).
Proof. intros t' k H. rewrite mem_add_to, H. reflexivity. Qed.

Lemma grows_fold {A : Type} (step : Contributors -> A -> Contributors)
  (xs : list A) :
  (forall c x, grows c (step c x)) ->
  forall c, grows c (fold_left step xs c).
Proof.
  intros H. induction xs as [|x xs IH]; intros c; simpl; [apply grows_refl|].
  eapply grows_trans; [apply H | apply IH].
Qed.

Section Growth.

Variable skip : Contributors -> string -> Js.value.

Lemma filterThenAdd_grows (t : ContributorType) (logins : list string)
  (c : Contributors) :
  grows c (filterThenAdd skip t logins c).
Proof.
  unfold filterThenAdd.
  generalize (List.filter (fun x => Js.not (skip c x)) logins) as kept.
  intros kept. apply grows_fold. intros c' x. apply grows_add.
Qed.

Lemma processIssueComment_grows (c : Contributors) (x : string) :
  grows c (processIssueComment skip c x).
Proof.
  unfold processIssueComment. destruct (Js.truthy _);
    [apply grows_refl | apply grows_add].
Qed.

Lemma processLinkedIssue_grows (c : Contributors) (i : LinkedIssue) :
  grows c (processLinkedIssue skip c i).
Proof.
  unfold processLinkedIssue. eapply grows_trans.
  2: apply grows_fold, processIssueComment_grows.
  destruct (Js.not _); [apply grows_add | apply grows_refl].
Qed.

Lemma processCommit_grows (s : State) (a : GitActor) :
  grows (contributors s) (contributors (processCommit skip s a)).
Proof.
  unfold processCommit. destruct (user a) as [u|].
  - destruct (Js.truthy _); [apply grows_refl | apply grows_add].
  - apply grows_add.
Qed.

Lemma commits_grow (cs : list GitActor) :
  forall s, grows (contributors s)
                  (contributors (fold_left (processCommit skip) cs s)).
Proof.
  induction cs as [|a cs IH]; intros s; simpl; [apply grows_refl|].
  eapply grows_trans; [apply processCommit_grows | apply IH].
Qed.

Lemma issues_grow (issues : list LinkedIssue) (c : Contributors) :
  grows c (fold_left (processLinkedIssue skip) issues c).
Proof. apply grows_fold, processLinkedIssue_grows. Qed.

Lemma aggregate_grows (s : State) (d : ContributorData) :
  grows (contributors s) (contributors (aggregate_from skip s d)).
Proof.
  unfold aggregate_from. cbn [contributors].
  eapply grows_trans; [apply commits_grow|].
  eapply grows_trans; [apply filterThenAdd_grows|].
  eapply grows_trans; [apply filterThenAdd_grows|].
  apply issues_grow.
Qed.

(** A commit without an account always lands in [committers]. *)
Lemma commits_email_present (e : string) (cs : list GitActor) :
  forall s,
    (exists a, In a cs /\ user a = None /\ author_email a = e) ->
    mem (contributors (fold_left (processCommit skip) cs s)) Committers e
    = true.
Proof.
  induction cs as [|a cs IH]; intros s (b & Hb & Hu & He); [destruct Hb|].
  simpl. destruct Hb as [->|Hb]; [|apply IH; eauto].
  apply commits_grow. unfold processCommit. rewrite Hu. cbn [contributors].
  rewrite mem_add_to, He, String.eqb_refl. simpl. apply orb_true_r.
Qed.

End Growth.

(** ** Excluded logins pass no guard *)

Section Excluded.

Variable skip : Contributors -> string -> Js.value.

Hypothesis skip_sound :
  forall c u, Js.truthy (skip c u) = false ->
              ~ In u skippedUsers /\ absent c u.

Variable u : string.
Hypothesis u_excluded : In u skippedUsers.

Lemma add_to_other_mem (t t' : ContributorType) (x : string)
  (c : Contributors) :
  u <> x -> mem (add_to t x c) t' u = mem c t' u.
Proof.
  intros Hne. rewrite mem_add_to. destruct (String.eqb_spec u x);
    [contradiction|]. now rewrite andb_false_r, orb_false_r.
Qed.

Lemma guard_excludes (c : Contributors) (x : string) :
  Js.truthy (skip c x) = false -> u <> x.
Proof. intros H%skip_sound ->. now destruct H. Qed.

Lemma filterThenAdd_excluded (t t' : ContributorType) (logins : list string)
  (c : Contributors) :
  mem (filterThenAdd skip t logins c) t' u = mem c t' u.
Proof.
  rewrite filterThenAdd_mem.
  destruct (Js.has (List.filter (fun x => Js.not (skip c x)) logins) u)
    eqn:E.
  - apply has_In, (kept_absent skip skip_sound) in E.
    destruct E as (_ & E & _). contradiction.
  - now rewrite andb_false_r, orb_false_r.
Qed.

Lemma processIssueComment_excluded (t' : ContributorType) (c : Contributors)
  (x : string) :
  mem (processIssueComment skip c x) t' u = mem c t' u.
Proof.
  unfold processIssueComment. destruct (Js.truthy (skip c x)) eqn:E;
    [reflexivity|]. apply add_to_other_mem. now apply (guard_excludes c).
Qed.

Lemma issueComments_excluded (t' : ContributorType) (xs : list string) :
  forall c, mem (fold_left (processIssueComment skip) xs c) t' u = mem c t' u.
Proof.
  induction xs as [|x xs IH]; intros c; simpl; [reflexivity|].
  now rewrite IH, processIssueComment_excluded.
Qed.

Lemma processLinkedIssue_excluded (t' : ContributorType) (c : Contributors)
  (i : LinkedIssue) :
  mem (processLinkedIssue skip c i) t' u = mem c t' u.
Proof.
  unfold processLinkedIssue. rewrite issueComments_excluded. unfold Js.not.
  destruct (Js.truthy (skip c (issue_author i))) eqn:E; cbn [negb];
    [reflexivity|]. apply add_to_other_mem. now apply (guard_excludes c).
Qed.

Lemma issues_excluded (t' : ContributorType) (issues : list LinkedIssue) :
  forall c, mem (fold_left (processLinkedIssue skip) issues c) t' u = mem c t' u.
Proof.
  induction issues as [|i issues IH]; intros c; simpl; [reflexivity|].
  now rewrite IH, processLinkedIssue_excluded.
Qed.

Lemma after_commits_excluded (t' : ContributorType) (s : State)
  (d : ContributorData) :
  mem (contributors (aggregate_from skip s d)) t' u
  = mem (contributors (fold_left (processCommit skip) (commits d) s)) t' u.
Proof.
  unfold aggregate_from. cbn [contributors].
  now rewrite issues_excluded, !filterThenAdd_excluded.
Qed.

Lemma commits_excluded (t' : ContributorType) (cs : list GitActor) :
  (forall a, In a cs -> user a = None -> u <> author_email a) ->
  forall s, mem (contributors (fold_left (processCommit skip) cs s)) t' u
            = mem (contributors s) t' u.
Proof.
  induction cs as [|a cs IH]; intros H s; simpl; [reflexivity|].
  rewrite IH by (intros b Hb; apply H; now right).
  unfold processCommit. destruct (user a) as [acc|] eqn:Hu.
  - destruct (Js.truthy (skip (contributors s) (login acc))) eqn:E;
      [reflexivity|]. cbn [contributors]. apply add_to_other_mem.
    now apply (guard_excludes (contributors s)).
  - cbn [contributors]. apply add_to_other_mem. apply H; [now left|exact Hu].
Qed.

Lemma aggregate_excluded (t' : ContributorType) (s : State)
  (d : ContributorData) :
  ~ In u (fallback_emails d) ->
  mem (contributors (aggregate_from skip s d)) t' u
  = mem (contributors s) t' u.
Proof.
  intros Hn. rewrite after_commits_excluded. apply commits_excluded.
  intros a Ha Hu ->. apply Hn. apply fallback_emails_In. eauto.
Qed.

End Excluded.

(** ** The synchronous policy records what it does not skip *)

Lemma skipUser_true_present (c : Contributors) (l : string) :
  ~ In l skippedUsers -> Js.truthy (skipUser c l) = true ->
  exists t, mem c t l = true.
Proof.
  intros Hn Ht. destruct (absent_dec c l) as [Ha|Hp]; [|exact Hp].
  assert (Js.truthy (skipUser c l) = false)
    by (apply skipUser_false_iff; auto). congruence.
Qed.

Lemma commit_logins_In (d : ContributorData) (l : string) :
  In l (commit_logins d)
  <-> exists a u, In a (commits d) /\ user a = Some u /\ login u = l.
Proof.
  unfold commit_logins. rewrite <- list_elem_of_In, list_elem_of_omap.
  split.
  - intros (a & Ha & E). apply list_elem_of_In in Ha.
    destruct (user a) as [u|] eqn:Hu; [|discriminate].
    injection E as <-. eauto.
  - intros (a & u & Ha & Hu & <-). exists a.
    rewrite list_elem_of_In, Hu. auto.
Qed.

Lemma sync_commits_present (l : string) (cs : list GitActor) :
  ~ In l skippedUsers ->
  forall s,
    (exists a u, In a cs /\ user a = Some u /\ login u = l) ->
    exists t,
      mem (contributors (fold_left (processCommit skipUser) cs s)) t l
      = true.
Proof.
  intros Hn. induction cs as [|a cs IH]; intros s (b & u & Hb & Hu & Hl);
    [destruct Hb|].
  simpl. destruct Hb as [->|Hb]; [|apply IH; eauto].
  assert (exists t, mem (contributors (processCommit skipUser s b)) t l
                    = true) as [t Ht].
  { unfold processCommit. rewrite Hu, Hl.
    destruct (Js.truthy (skipUser (contributors s) l)) eqn:E.
    - now apply skipUser_true_present.
    - exists Committers. cbn [contributors].
      rewrite mem_add_to, String.eqb_refl. simpl. apply orb_true_r. }
  exists t. now apply commits_grow.
Qed.

Lemma sync_filterThenAdd_present (t : ContributorType) (l : string)
  (logins : list string) (c : Contributors) :
  ~ In l skippedUsers -> In l logins ->
  exists t', mem (filterThenAdd skipUser t logins c) t' l = true.
Proof.
  intros Hn Hl. destruct (Js.truthy (skipUser c l)) eqn:E.
  - destruct (skipUser_true_present c l Hn E) as [t' Ht'].
    exists t'. now apply filterThenAdd_grows.
  - exists t. rewrite filterThenAdd_mem.
    assert (Js.has (List.filter (fun x => Js.not (skipUser c x)) logins) l
            = true) as ->.
    { apply has_In, filter_In. split; [exact Hl|]. unfold Js.not.
      now rewrite E. }
    rewrite bool_decide_eq_true_2 by reflexivity. apply orb_true_r.
Qed.

(** ** A fresh run, stage by stage *)

Section FreshRun.

Variable p : Pipeline.
Variable d : ContributorData.

Let skip := skip_of p.
Let s1 := fold_left (processCommit skip) (commits d) initial.
Let c2 := filterThenAdd skip Reviewers (reviews d) (contributors s1).
Let c3 := filterThenAdd skip Commenters (comments d) c2.
Let c4 := contributors (aggregate p d).

Lemma stage1_others (t : ContributorType) (k : string) :
  t <> Committers -> mem (contributors s1) t k = false.
Proof.
  intros Ht. unfold mem, s1. rewrite commits_others by exact Ht.
  destruct t; reflexivity.
Qed.

Lemma stage2_others (t : ContributorType) (k : string) :
  t <> Committers -> t <> Reviewers -> mem c2 t k = false.
Proof.
  intros H1 H2. unfold c2. rewrite filterThenAdd_mem, stage1_others by auto.
  rewrite bool_decide_eq_false_2 by congruence. reflexivity.
Qed.

Lemma stage3_others (k : string) : mem c3 Reporters k = false.
Proof.
  unfold c3. rewrite filterThenAdd_mem, stage2_others by discriminate.
  reflexivity.
Qed.

Lemma stage1_grows : grows (contributors s1) c4.
Proof.
  unfold c4, aggregate, aggregate_from. cbn [contributors].
  eapply grows_trans; [apply filterThenAdd_grows|].
  eapply grows_trans; [apply filterThenAdd_grows|]. apply issues_grow.
Qed.

Lemma stage2_grows : grows c2 c4.
Proof.
  unfold c4, aggregate, aggregate_from. cbn [contributors].
  eapply grows_trans; [apply filterThenAdd_grows|]. apply issues_grow.
Qed.

Lemma stage3_grows : grows c3 c4.
Proof.
  unfold c4, aggregate, aggregate_from. cbn [contributors].
  apply issues_grow.
Qed.

Lemma fresh_at_most_one (k : string) : at_most_one c4 k.
Proof.
  unfold c4, aggregate. apply aggregate_initial_at_most_one.
  apply skip_of_sound.
Qed.

(** Excluded keys are in no set but, possibly, [committers]. *)
Lemma fresh_excluded (t : ContributorType) (k : string) :
  In k skippedUsers -> t <> Committers -> mem c4 t k = false.
Proof.
  intros Hk Ht. unfold c4, aggregate.
  rewrite (after_commits_excluded _ (skip_of_sound p) k Hk).
  now apply stage1_others.
Qed.

Lemma placed_once (c : Contributors) (t t' : ContributorType) (k : string) :
  grows c c4 -> mem c t k = true -> mem c4 t' k = true -> t = t'.
Proof.
  intros G H H'. apply (fresh_at_most_one k); [now apply G | exact H'].
Qed.

Lemma IndexJs_fresh_others (t : ContributorType) (k : string) :
  p = IndexJs -> t <> Committers -> mem c4 t k = false.
Proof.
  intros Hp Ht. unfold c4, aggregate, mem. rewrite Hp. cbn [skip_of].
  rewrite IndexJs_others by exact Ht. destruct t; reflexivity.
Qed.

Lemma sync_after_commits (k : string) :
  p = ContributorsList -> ~ In k skippedUsers -> In k (commit_logins d) ->
  mem (contributors s1) Committers k = true.
Proof.
  intros Hp Hn Hk. apply commit_logins_In in Hk.
  destruct (sync_commits_present k (commits d) Hn initial Hk) as [t Ht].
  assert (Ht' : mem (contributors s1) t k = true)
    by (unfold s1, skip; rewrite Hp; exact Ht).
  destruct (decide (t = Committers)) as [->|Hne]; [exact Ht'|].
  rewrite stage1_others in Ht' by exact Hne. discriminate.
Qed.

Lemma email_after_commits (k : string) :
  In k (fallback_emails d) -> mem (contributors s1) Committers k = true.
Proof.
  intros Hk. apply fallback_emails_In in Hk.
  unfold s1. now apply commits_email_present.
Qed.

(** A key credited in a category occurs in no channel processed before the
    one feeding that category. *)
Lemma fresh_priority (t : ContributorType) (k : string) :
  mem c4 t k = true -> ~ In k (earlier_channels d t).
Proof.
  intros Hm Hin.
  destruct (decide (t = Committers)) as [->|Ht]; [destruct Hin|].
  destruct (decide (p = IndexJs)) as [Hp|Hp'].
  { rewrite IndexJs_fresh_others in Hm by auto. discriminate. }
  assert (Hp : p = ContributorsList) by (destruct p; congruence).
  assert (Hskip : skip = skipUser) by (unfold skip; now rewrite Hp).
  assert (Hn : ~ In k skippedUsers).
  { intros Hx. rewrite fresh_excluded in Hm by auto. discriminate. }
  assert (Hcommit : In k (commit_keys d) -> False).
  { unfold commit_keys. rewrite in_app_iff. intros [Hk|Hk].
    - apply Ht. symmetry.
      apply (placed_once (contributors s1) Committers t k);
        [apply stage1_grows | now apply sync_after_commits | exact Hm].
    - apply Ht. symmetry.
      apply (placed_once (contributors s1) Committers t k);
        [apply stage1_grows | now apply email_after_commits | exact Hm]. }
  assert (Hreview : In k (reviews d) -> t <> Reviewers -> False).
  { intros Hk Hr.
    destruct (sync_filterThenAdd_present Reviewers k (reviews d)
                (contributors s1) Hn Hk) as [t0 H0].
    assert (mem c2 t0 k = true) as H0' by (unfold c2; rewrite Hskip; exact H0).
    assert (t0 = t) by (apply (placed_once c2 t0 t k);
                        [apply stage2_grows | exact H0' | exact Hm]).
    subst t0. rewrite stage2_others in H0' by auto. discriminate. }
  assert (Hcomment : In k (comments d) -> t = Reporters -> False).
  { intros Hk ->.
    destruct (sync_filterThenAdd_present Commenters k (comments d) c2 Hn Hk)
      as [t0 H0].
    assert (mem c3 t0 k = true) as H0' by (unfold c3; rewrite Hskip; exact H0).
    assert (t0 = Reporters) by (apply (placed_once c3 t0 Reporters k);
                        [apply stage3_grows | exact H0' | exact Hm]).
    subst t0. rewrite stage3_others in H0'. discriminate. }
  destruct t; simpl in Hin; rewrite ?in_app_iff in Hin.
  - congruence.
  - auto.
  - destruct Hin as [Hk|Hk]; [auto|]. apply Hreview; [exact Hk|discriminate].
  - destruct Hin as [Hk|[Hk|Hk]]; [auto| |auto].
    apply Hreview; [exact Hk|discriminate].
Qed.

End FreshRun.

(** ** Where a membership comes from *)

Section Sources.

Variable skip : Contributors -> string -> Js.value.

Lemma add_to_source (t t' : ContributorType) (x k : string)
  (c : Contributors) :
  mem (add_to t x c) t' k = true ->
  mem c t' k = true \/ (t = t' /\ k = x).
Proof.
  rewrite mem_add_to, orb_true_iff, andb_true_iff, bool_decide_eq_true,
    String.eqb_eq. tauto.
Qed.

Lemma processCommit_source (s : State) (a : GitActor) (t : ContributorType)
  (k : string) :
  mem (contributors (processCommit skip s a)) t k = true ->
  mem (contributors s) t k = true
  \/ (t = Committers
      /\ (user a = None /\ author_email a = k
          \/ exists u, user a = Some u /\ login u = k)).
Proof.
  unfold processCommit. destruct (user a) as [u|] eqn:Hu.
  - destruct (Js.truthy _); [tauto|]. cbn [contributors].
    intros [H|[<- ->]]%add_to_source; [tauto|]. right. eauto.
  - cbn [contributors]. intros [H|[<- ->]]%add_to_source; [tauto|].
    right. auto.
Qed.

Lemma commits_source (cs : list GitActor) (t : ContributorType) (k : string) :
  forall s,
    mem (contributors (fold_left (processCommit skip) cs s)) t k = true ->
    mem (contributors s) t k = true
    \/ (t = Committers
        /\ ((exists a, In a cs /\ user a = None /\ author_email a = k)
            \/ exists a u, In a cs /\ user a = Some u /\ login u = k)).
Proof.
  induction cs as [|a cs IH]; intros s; simpl; [tauto|].
  intros [H|[-> H]]%IH.
  - apply processCommit_source in H as [H|[-> [[H1 H2]|(u & H1 & H2)]]];
      [tauto| |]; right; (split; [reflexivity|]).
    + left. exists a. auto.
    + right. exists a, u. auto.
  - right. split; [reflexivity|].
    destruct H as [(b & Hb & H)|(b & u & Hb & H)].
    + left. exists b. auto.
    + right. exists b, u. auto.
Qed.

Lemma filterThenAdd_source (t t' : ContributorType) (logins : list string)
  (c : Contributors) (k : string) :
  mem (filterThenAdd skip t logins c) t' k = true ->
  mem c t' k = true \/ (t = t' /\ In k logins).
Proof.
  rewrite filterThenAdd_mem, orb_true_iff, andb_true_iff,
    bool_decide_eq_true, has_In, filter_In. tauto.
Qed.

Lemma issueComments_source (xs : list string) (t : ContributorType)
  (k : string) :
  forall c,
    mem (fold_left (processIssueComment skip) xs c) t k = true ->
    mem c t k = true \/ (t = Commenters /\ In k xs).
Proof.
  induction xs as [|x xs IH]; intros c; simpl; [tauto|].
  intros [H|[-> H]]%IH; [|tauto].
  unfold processIssueComment in H. destruct (Js.truthy _); [tauto|].
  apply add_to_source in H as [H|[<- ->]]; tauto.
Qed.

Lemma processLinkedIssue_source (i : LinkedIssue) (t : ContributorType)
  (k : string) (c : Contributors) :
  mem (processLinkedIssue skip c i) t k = true ->
  mem c t k = true
  \/ (t = Reporters /\ k = issue_author i)
  \/ (t = Commenters /\ In k (issue_comments i)).
Proof.
  unfold processLinkedIssue. intros [H|H]%issueComments_source; [|tauto].
  destruct (Js.not _); [|tauto].
  apply add_to_source in H as [H|[<- ->]]; tauto.
Qed.

Lemma issues_source (issues : list LinkedIssue) (t : ContributorType)
  (k : string) :
  forall c,
    mem (fold_left (processLinkedIssue skip) issues c) t k = true ->
    mem c t k = true
    \/ (t = Reporters /\ In k (List.map issue_author issues))
    \/ (t = Commenters
        /\ In k (List.concat (List.map issue_comments issues))).
Proof.
  induction issues as [|i issues IH]; intros c; simpl; [tauto|].
  rewrite in_app_iff. intros [H|H]%IH; [|tauto].
  apply processLinkedIssue_source in H. intuition auto.
Qed.

(** After a fresh run a key sits only in a category whose channel carries
    it. *)
Lemma aggregate_source (d : ContributorData) (t : ContributorType)
  (k : string) :
  mem (contributors (aggregate_from skip initial d)) t k = true ->
  In k (channel d t).
Proof.
  unfold aggregate_from. cbn [contributors].
  intros [H|H]%issues_source.
  - apply filterThenAdd_source in H as [H|[<- H]];
      [|simpl; rewrite in_app_iff; tauto].
    apply filterThenAdd_source in H as [H|[<- H]]; [|exact H].
    apply commits_source in H as [H|[-> H]];
      [destruct t; discriminate H|].
    simpl. unfold commit_keys. rewrite in_app_iff.
    destruct H as [H|H].
    + right. now apply fallback_emails_In.
    + left. now apply commit_logins_In.
  - destruct H as [[-> H]|[-> H]]; simpl; [exact H|].
    rewrite in_app_iff. tauto.
Qed.

End Sources.


(** ** The one-membership invariant *)

(** C1.  After a fresh run of either pipeline every key, whatever channel it
    came from, is in at most one category set; a key credited in a category
    comes from the channel that feeds that category and occurs in no channel
    processed before it (commits, then reviews, then comments, then linked
    issues).
    From an arbitrary module state the pass preserves the invariant for
    every key that is not the email of a commit without an account: those
    emails alone are added without a check. *)
Theorem one_category_per_key :
  (forall p d k,
      length (memberships (contributors (aggregate p d)) k) <= 1)
  /\ (forall p d k t,
        In t (memberships (contributors (aggregate p d)) k) ->
        In k (channel d t) /\ ~ In k (earlier_channels d t))
  /\ (forall p s d k,
        length (memberships (contributors s) k) <= 1 ->
        ~ In k (fallback_emails d) ->
        length (memberships
                  (contributors (aggregate_from (skip_of p) s d)) k) <= 1).
Proof.
  split; [|split].
  - intros p d k. apply memberships_at_most_one, fresh_at_most_one.
  - intros p d k t Ht. apply memberships_In in Ht. split.
    + now apply (aggregate_source (skip_of p)).
    + now apply fresh_priority in Ht.
  - intros p s d k Hs Hk. apply memberships_at_most_one in Hs.
    apply memberships_at_most_one.
    destruct (aggregate_settled _ (skip_of_sound p) k d s Hk)
      as (_ & P & A).
    destruct (absent_dec (contributors s) k) as [Ha|Hp]; [auto|].
    intros t1 t2. rewrite !(P Hp). apply Hs.
Qed.

(** A state a previous run may have left, and a commit by the same login. *)
Definition bob_account : User :=
  {| databaseId := 7; login := "bob"; name := Some "Bob";
     email := "bob@example.org" |}.

Definition bob_reviewed : State :=
  {| contributors :=
       {| committers := []; reviewers := ["bob"]; commenters := [];
          reporters := [] |};
     userData := ∅ |}.

Definition bob_commits : ContributorData :=
  {| commits := [{| user := Some bob_account; author_name := "Bob";
                    author_email := "bob@example.org" |}];
     reviews := []; comments := []; closingIssuesReferences := [] |}.

Lemma one_category_per_key_witness :
  length (memberships (contributors bob_reviewed) "bob") <= 1
  /\ ~ In "bob" (fallback_emails bob_commits)
  /\ length (memberships
               (contributors
                  (aggregate_from (skip_of ContributorsList) bob_reviewed
                                  bob_commits)) "bob") <= 1.
Proof.
  assert (H1 : length (memberships (contributors bob_reviewed) "bob") <= 1)
    by (vm_compute; lia).
  assert (H2 : ~ In "bob" (fallback_emails bob_commits))
    by (vm_compute; tauto).
  split; [exact H1|]. split; [exact H2|].
  exact (proj2 (proj2 one_category_per_key) ContributorsList bob_reviewed
               bob_commits "bob" H1 H2).
Defined.

(** The exemption is real: on a state left by an earlier run, the email of a
    commit without an account joins [committers] although the same string is
    already a reviewer. *)
Example fallback_email_in_two_sets :
  memberships
    (contributors
       (aggregate_from skipUser bob_reviewed
          {| commits := [{| user := None; author_name := "Bob";
                            author_email := "bob" |}];
             reviews := []; comments := [];
             closingIssuesReferences := [] |})) "bob"
  = [Committers; Reviewers].
Proof. reflexivity. Qed.

(** ** Committer and reviewer *)






Definition alice_account : User :=
  {| databaseId := 1; login := "alice"; name := Some "Alice";
     email := "alice@example.org" |}.

Definition alice_commit_and_review : ContributorData :=
  {| commits := [{| user := Some alice_account; author_name := "Alice";
                    author_email := "alice@example.org" |}];
     reviews := ["bob"; "alice"]; comments := [];
     closingIssuesReferences := [] |}.


(** In [run] of src/index.js the same login is recorded nowhere: the
    unawaited promise of [utils.skipUser] makes every guard skip. *)
Example run_records_no_login :
  memberships (contributors (aggregate IndexJs alice_commit_and_review))
              "alice" = []
  /\ githubUsers (contributors (aggregate IndexJs alice_commit_and_review))
     = [].
Proof. split; reflexivity. Qed.

(** ** The excluded login *)







(** ** The store that throws *)

Lemma Array_length_iff (k : string) : Array_length k = true <-> k = "length".
Proof. unfold Array_length. apply String.eqb_eq. Qed.

Lemma stored_key_contributors (skip : Contributors -> string -> Js.value)
  (s : State) (a : GitActor) :
  contributors (processCommit skip s a)
  = match stored_key skip s a with
    | Some k => add_to Committers k (contributors s)
    | None => contributors s
    end.
Proof.
  unfold processCommit, stored_key. destruct (user a) as [u|];
    [destruct (Js.truthy _)|]; reflexivity.
Qed.

Lemma stored_key_commit_key (skip : Contributors -> string -> Js.value)
  (s : State) (a : GitActor) (k : string) :
  stored_key skip s a = Some k ->
  (user a = None /\ author_email a = k)
  \/ (exists u, user a = Some u /\ login u = k
                /\ Js.truthy (skip (contributors s) k) = false).
Proof.
  unfold stored_key. destruct (user a) as [u|].
  - destruct (Js.truthy _) eqn:E; [discriminate|]. intros [= <-]. eauto.
  - intros [= <-]. auto.
Qed.

Lemma commitLoop_completed (skip : Contributors -> string -> Js.value)
  (cs : list GitActor) :
  forall s s1, commitLoop skip cs s = Completed s1 ->
               s1 = fold_left (processCommit skip) cs s.
Proof.
  induction cs as [|a cs IH]; intros s s1; simpl; [now intros [= <-]|].
  destruct (stored_key skip s a) as [k|]; [|apply IH].
  destruct (Array_length k); [discriminate|apply IH].
Qed.

Lemma commitLoop_thrown (skip : Contributors -> string -> Js.value)
  (cs : list GitActor) :
  forall s s', commitLoop skip cs s = RangeError s' ->
    exists pre a post,
      cs = pre ++ a :: post
      /\ stored_key skip (fold_left (processCommit skip) pre s) a
         = Some "length"
      /\ contributors s'
         = contributors (fold_left (processCommit skip) (pre ++ [a]) s)
      /\ userData s' = userData (fold_left (processCommit skip) pre s).
Proof.
  induction cs as [|a cs IH]; intros s s'; simpl; [discriminate|].
  assert (Hrec : commitLoop skip cs (processCommit skip s a) = RangeError s' ->
            exists pre b post,
              a :: cs = pre ++ b :: post
              /\ stored_key skip (fold_left (processCommit skip) pre s) b
                 = Some "length"
              /\ contributors s'
                 = contributors (fold_left (processCommit skip) (pre ++ [b]) s)
              /\ userData s' = userData (fold_left (processCommit skip) pre s)).
  { intros (pre & b & post & -> & H1 & H2 & H3)%IH.
    exists (a :: pre), b, post. auto. }
  destruct (stored_key skip s a) as [k|] eqn:Ek; [|exact Hrec].
  destruct (Array_length k) eqn:El; [|exact Hrec].
  apply Array_length_iff in El. subst k. intros [= <-].
  exists [], a, cs. cbn [app fold_left contributors userData].
  rewrite stored_key_contributors, Ek. auto.
Qed.

Lemma commitLoop_runs (skip : Contributors -> string -> Js.value)
  (cs : list GitActor) :
  (forall a, In a cs -> user a = None -> author_email a <> "length") ->
  (forall a u, In a cs -> user a = Some u -> login u <> "length") ->
  forall s, commitLoop skip cs s
            = Completed (fold_left (processCommit skip) cs s).
Proof.
  intros He Hl s. destruct (commitLoop skip cs s) as [s1|s'] eqn:E.
  - now rewrite (commitLoop_completed skip cs s s1 E).
  - apply commitLoop_thrown in E as (pre & a & post & -> & Hk & _).
    assert (Ha : In a (pre ++ a :: post))
      by (apply in_app_iff; right; now left).
    apply stored_key_commit_key in Hk as [[Hu Hk]|(u & Hu & Hk & _)].
    + now destruct (He a Ha Hu).
    + now destruct (Hl a u Ha Hu).
Qed.

Lemma pass_completed (skip : Contributors -> string -> Js.value)
  (s s1 : State) (d : ContributorData) :
  pass skip s d = Completed s1 -> s1 = aggregate_from skip s d.
Proof.
  unfold pass. destruct (commitLoop skip (commits d) s) as [s0|s'] eqn:E;
    [|discriminate]. intros [= <-].
  now rewrite (commitLoop_completed skip _ s s0 E).
Qed.

Lemma pass_runs (skip : Contributors -> string -> Js.value) (s : State)
  (d : ContributorData) :
  ~ In "length" (commit_keys d) ->
  pass skip s d = Completed (aggregate_from skip s d).
Proof.
  intros Hn. unfold pass. rewrite commitLoop_runs; [reflexivity| |].
  - intros a Ha Hu He. apply Hn. unfold commit_keys. apply in_app_iff.
    right. apply fallback_emails_In. eauto.
  - intros a u Ha Hu Hl. apply Hn. unfold commit_keys. apply in_app_iff.
    left. apply commit_logins_In. eauto.
Qed.

Lemma pass_thrown (skip : Contributors -> string -> Js.value) (s s' : State)
  (d : ContributorData) :
  pass skip s d = RangeError s' ->
  exists pre a post,
    commits d = pre ++ a :: post
    /\ stored_key skip (fold_left (processCommit skip) pre s) a
       = Some "length"
    /\ contributors s'
       = contributors (fold_left (processCommit skip) (pre ++ [a]) s)
    /\ userData s' = userData (fold_left (processCommit skip) pre s).
Proof.
  unfold pass. destruct (commitLoop skip (commits d) s) as [s0|s0] eqn:E;
    [discriminate|]. intros [= <-]. now apply commitLoop_thrown.
Qed.

(** ** Commits without a linked account *)

Definition all_NoDup (c : Contributors) : Prop :=
  forall t, NoDup (members c t).

Lemma add_to_NoDup (t : ContributorType) (x : string) (c : Contributors) :
  all_NoDup c -> all_NoDup (add_to t x c).
Proof.
  intros H t'. pose proof (H t') as Ht'. pose proof (H t) as Ht.
  destruct t, t'; simpl in *; auto using add_NoDup.
Qed.

Lemma fold_NoDup {A : Type} (step : Contributors -> A -> Contributors)
  (xs : list A) :
  (forall c x, all_NoDup c -> all_NoDup (step c x)) ->
  forall c, all_NoDup c -> all_NoDup (fold_left step xs c).
Proof.
  intros H. induction xs as [|x xs IH]; intros c Hc; simpl; auto.
Qed.

Section UnlinkedCommits.

Variable skip : Contributors -> string -> Js.value.

Hypothesis skip_sound :
  forall c u, Js.truthy (skip c u) = false ->
              ~ In u skippedUsers /\ absent c u.

Lemma processCommit_NoDup (s : State) (a : GitActor) :
  all_NoDup (contributors s) ->
  all_NoDup (contributors (processCommit skip s a)).
Proof.
  intros H. unfold processCommit. destruct (user a) as [u|].
  - destruct (Js.truthy _); [exact H|]. now apply add_to_NoDup.
  - now apply add_to_NoDup.
Qed.

Lemma commits_NoDup (cs : list GitActor) :
  forall s, all_NoDup (contributors s) ->
            all_NoDup (contributors (fold_left (processCommit skip) cs s)).
Proof.
  induction cs as [|a cs IH]; intros s H; simpl; [exact H|].
  apply IH. now apply processCommit_NoDup.
Qed.

Lemma aggregate_NoDup (s : State) (d : ContributorData) :
  all_NoDup (contributors s) ->
  all_NoDup (contributors (aggregate_from skip s d)).
Proof.
  intros H. unfold aggregate_from. cbn [contributors].
  apply fold_NoDup.
  { intros c i Hc. unfold processLinkedIssue. apply fold_NoDup.
    - intros c' x Hc'. unfold processIssueComment.
      destruct (Js.truthy _); [exact Hc'|]. now apply add_to_NoDup.
    - destruct (Js.not _); [now apply add_to_NoDup | exact Hc]. }
  unfold filterThenAdd.
  apply fold_NoDup; [intros; now apply add_to_NoDup|].
  apply fold_NoDup; [intros; now apply add_to_NoDup|].
  now apply commits_NoDup.
Qed.

(** Once an email is in [committers], later commits that do not carry it
    as a fallback email leave its profile alone: a linked commit by a login
    spelled like the email is skipped as already present. *)
Lemma later_commits_keep_profile (e : string) (cs : list GitActor) :
  (forall a, In a cs -> user a = None -> author_email a <> e) ->
  forall s,
    mem (contributors s) Committers e = true ->
    userData (fold_left (processCommit skip) cs s) !! e = userData s !! e.
Proof.
  induction cs as [|a cs IH]; intros H s Hm; simpl; [reflexivity|].
  rewrite IH.
  - unfold processCommit. destruct (user a) as [u|] eqn:Hu.
    + destruct (Js.truthy (skip (contributors s) (login u))) eqn:E;
        [reflexivity|]. cbn [userData]. apply lookup_insert_ne.
      intros He. rewrite He in E. apply skip_sound in E as [_ E].
      rewrite E in Hm. discriminate.
    + cbn [userData]. apply lookup_insert_ne. apply H; [now left|exact Hu].
  - intros b Hb. apply H. now right.
  - now apply processCommit_grows.
Qed.

Lemma last_fallback_commit (pre post : list GitActor) (n e : string)
  (s : State) :
  (forall a, In a post -> user a = None -> author_email a <> e) ->
  let s' := fold_left (processCommit skip)
              (pre ++ {| user := None; author_name := n;
                         author_email := e |} :: post) s in
  mem (contributors s') Committers e = true
  /\ userData s' !! e = Some (fresh_profile (AuthorProfile n e)).
Proof.
  intros H s'. unfold s'. rewrite fold_left_app. cbn [fold_left].
  set (s0 := fold_left (processCommit skip) pre s).
  assert (Hm : mem (contributors
                      (processCommit skip s0
                         {| user := None; author_name := n;
                            author_email := e |})) Committers e = true).
  { unfold processCommit. cbn [user contributors author_email].
    rewrite mem_add_to, String.eqb_refl. simpl. apply orb_true_r. }
  split.
  - now apply commits_grow.
  - rewrite later_commits_keep_profile by assumption.
    unfold processCommit. cbn [user userData author_email author_name].
    apply lookup_insert_eq.
Qed.

End UnlinkedCommits.

Lemma initial_NoDup : all_NoDup (contributors initial).
Proof. intros []; apply NoDup_nil_2. Qed.

Lemma NoDup_count_one (l : list string) (x : string) :
  NoDup l -> In x l -> count_occ string_dec l x = 1.
Proof.
  intros Hl Hx. apply NoDup_ListNoDup in Hl.
  now apply (proj1 (NoDup_count_occ' string_dec l) Hl).
Qed.

(** When the pass reaches its end, the last commit without a linked account
    that carries the email [e] decides the profile under [e], and [e] is in
    [committers] once. *)
Lemma completed_pass_last_profile (p : Pipeline)
  (d : ContributorData) (pre post : list GitActor) (n e : string) :
  commits d
  = pre ++ {| user := None; author_name := n; author_email := e |} :: post ->
  ~ In e (unlinked_emails post) ->
  count_occ string_dec (committers (contributors (aggregate p d))) e = 1
  /\ userData (aggregate p d) !! e = Some (fresh_profile (AuthorProfile n e)).
Proof.
  intros Hd Hpost.
  assert (Hpost' : forall a, In a post -> user a = None ->
                             author_email a <> e).
  { intros a Ha Hu He. apply Hpost. rewrite <- list_elem_of_In.
    unfold unlinked_emails. apply list_elem_of_omap. exists a. rewrite list_elem_of_In, Hu, He.
    auto. }
  destruct (last_fallback_commit _ (skip_of_sound p) pre post n e initial
              Hpost') as [Hm Hu].
  rewrite <- Hd in Hm, Hu. split.
  - apply NoDup_count_one.
    + apply (aggregate_NoDup (skip_of p) initial d initial_NoDup Committers).
    + apply has_In. apply (stage1_grows p d Committers e). exact Hm.
  - unfold aggregate, aggregate_from. cbn [userData]. exact Hu.
Qed.

Definition two_unlinked_commits : ContributorData :=
  {| commits :=
       [{| user := None; author_name := "Dev"; author_email := "dev@x.org" |};
        {| user := None; author_name := "Dev Eloper";
           author_email := "dev@x.org" |};
        {| user := Some alice_account; author_name := "Alice";
           author_email := "alice@example.org" |}];
     reviews := []; comments := []; closingIssuesReferences := [] |}.

(** A commit by the account ["length"], then two commits without an account
    that share an email. *)
Definition length_account : User :=
  {| databaseId := 9; login := "length"; name := None; email := "" |}.

Definition length_then_two_unlinked : ContributorData :=
  {| commits :=
       {| user := Some length_account; author_name := "L";
          author_email := "l@x.org" |} :: commits two_unlinked_commits;
     reviews := []; comments := []; closingIssuesReferences := [] |}.

(** C10, the code at the failing input and where it agrees.  [userData] is
    an array, and the store [userData[ "length" ] = ...] throws a
    [RangeError]: after a linked commit by the account ["length"], the two
    commits without an account that share ["dev@x.org"] are never reached,
    the email is not in [committers] and no pair is stored under it; two
    such commits whose shared email is ["length"] leave the email in
    [committers] with nothing stored.  Whenever the pass reaches its end,
    in either pipeline, the email is in [committers] exactly once and the
    pair of the last such commit is stored under it. *)
Theorem fallback_email_once_last_profile :
  (exists s',
      pass skipUser initial length_then_two_unlinked = RangeError s'
      /\ committers (contributors s') = ["length"]
      /\ userData s' !! "dev@x.org" = None)
  /\ (exists s',
        pass skipUser initial
          {| commits :=
               [{| user := None; author_name := "A";
                   author_email := "length" |};
                {| user := None; author_name := "B";
                   author_email := "length" |}];
             reviews := []; comments := [];
             closingIssuesReferences := [] |} = RangeError s'
        /\ committers (contributors s') = ["length"]
        /\ userData s' !! "length" = None)
  /\ (forall p d pre post n e s1,
        pass (skip_of p) initial d = Completed s1 ->
        commits d
        = pre ++ {| user := None; author_name := n; author_email := e |}
              :: post ->
        ~ In e (unlinked_emails post) ->
        count_occ string_dec (committers (contributors s1)) e = 1
        /\ userData s1 !! e = Some (fresh_profile (AuthorProfile n e))).
Proof.
  split; [eexists; split; [reflexivity|split; reflexivity]|].
  split; [eexists; split; [reflexivity|split; reflexivity]|].
  intros p d pre post n e s1 Hp Hd Hpost.
  apply pass_completed in Hp. subst s1.
  now apply (completed_pass_last_profile p d pre post n e).
Qed.

Lemma fallback_email_once_last_profile_witness :
  pass (skip_of ContributorsList) initial two_unlinked_commits
  = Completed (aggregate ContributorsList two_unlinked_commits)
  /\ ~ In "dev@x.org"
         (unlinked_emails
            [{| user := Some alice_account; author_name := "Alice";
                author_email := "alice@example.org" |}])
  /\ userData (aggregate ContributorsList two_unlinked_commits)
       !! "dev@x.org"
     = Some (fresh_profile (AuthorProfile "Dev Eloper" "dev@x.org")).
Proof.
  assert (H : ~ In "dev@x.org"
                   (unlinked_emails
                      [{| user := Some alice_account; author_name := "Alice";
                          author_email := "alice@example.org" |}]))
    by (simpl; tauto).
  split; [reflexivity|]. split; [exact H|].
  exact (proj2 (proj2 (proj2 fallback_email_once_last_profile)
                  ContributorsList two_unlinked_commits
                  [{| user := None; author_name := "Dev";
                      author_email := "dev@x.org" |}]
                  [{| user := Some alice_account; author_name := "Alice";
                      author_email := "alice@example.org" |}]
                  "Dev Eloper" "dev@x.org" _ eq_refl eq_refl H)).
Defined.

(** ** Profile backfill *)

Lemma backfill_other (l : string) (response : list User) :
  (forall v, In v response -> login v <> l) ->
  forall table, store_records response table !! l = table !! l.
Proof.
  unfold store_records. induction response as [|v vs IH]; intros H table; simpl;
    [reflexivity|].
  rewrite IH by (intros w Hw; apply H; now right).
  apply lookup_insert_ne. apply H. now left.
Qed.

Lemma backfill_last (l : string) (before after : list User) (u : User)
  (table : gmap string Profile) :
  login u = l ->
  (forall v, In v after -> login v <> l) ->
  store_records (before ++ u :: after) table !! l
  = Some (fresh_profile (AccountProfile u)).
Proof.
  intros Hl Ha. unfold store_records. rewrite fold_left_app. cbn [fold_left].
  fold (store_records after
          (<[login u := fresh_profile (AccountProfile u)]>
             (fold_left (fun acc v =>
                           <[login v := fresh_profile (AccountProfile v)]> acc)
                        before table))).
  rewrite backfill_other by exact Ha. rewrite Hl. apply lookup_insert_eq.
Qed.

Lemma backfill_clean (response : list User) :
  (forall v, In v response -> login v <> "length") ->
  forall table, backfill response table = (store_records response table, false).
Proof.
  unfold store_records.
  induction response as [|v vs IH]; intros H table; simpl; [reflexivity|].
  destruct (Array_length (login v)) eqn:E.
  - apply Array_length_iff in E. now destruct (H v (or_introl eq_refl)).
  - apply IH. intros w Hw. apply H. now right.
Qed.


(** The answer of the batched request used below: one record per login. *)
Definition profile_of (l : string) : User :=
  {| databaseId := Z.of_nat (String.length l); login := l; name := None;
     email := "" |}.

Definition alice_bob_services : Services :=
  {| getContributorData := alice_commit_and_review;
     getUsersData := List.map profile_of;
     getWPOrgData := fun _ =>
       {[ "alice" := Linked "alice-wp"; "bob" := NotLinked ]} |}.

(** A pull request reviewed by the account ["length"]. *)
Definition length_reviews : Services :=
  {| getContributorData :=
       {| commits := []; reviews := ["length"]; comments := [];
          closingIssuesReferences := [] |};
     getUsersData := List.map profile_of;
     getWPOrgData := fun _ => ∅ |}.

(** C6, the code at the failing input and where it agrees.  [userData] is
    an array: for the reviewer ["length"] the batched request returns a
    record, the store [userData[ "length" ] = user] throws a [RangeError],
    [getContributorsList] ends there and the table holds nothing under that
    login.  When no returned record has the login ["length"], the block of
    [getContributorsList] stores under every login of the union the last
    record returned for it (id, login, name, email), from any state.  The
    block of [run] of src/index.js declares a [userData] of its own and
    writes there: it leaves the table as it was. *)
Theorem backfill_stores_returned_profile :
  (In "length"
      (others (contributors
                 (aggregate ContributorsList
                    (getContributorData length_reviews))))
   /\ getUsersData length_reviews ["length"] = [profile_of "length"]
   /\ outcome (getContributorsList length_reviews initial) = ThrewRangeError
   /\ userData (final (getContributorsList length_reviews initial))
        !! "length" = None)
  /\ (forall sv s1 l u before after,
        In l (others (contributors s1)) ->
        getUsersData sv (others (contributors s1)) = before ++ u :: after ->
        login u = l ->
        (forall v, In v after -> login v <> l) ->
        (forall v, In v (before ++ u :: after) -> login v <> "length") ->
        fst (backfillStep sv s1) = [ProfileRequest (others (contributors s1))]
        /\ snd (snd (backfillStep sv s1)) = false
        /\ fst (snd (backfillStep sv s1)) !! l
           = Some (fresh_profile (AccountProfile u)))
  /\ (forall sv s1, snd (run_backfillStep sv s1) = userData s1).
Proof.
  split.
  { split; [now left|]. split; [reflexivity|]. split; reflexivity. }
  split.
  - intros sv s1 l u before after Hin Hresp Hl Hafter Hclean.
    unfold backfillStep.
    destruct (others (contributors s1)) as [|x xs] eqn:Ho; [destruct Hin|].
    cbn [length Nat.ltb Nat.leb fst snd]. rewrite Hresp, backfill_clean
      by exact Hclean.
    cbn [fst snd]. split; [reflexivity|]. split; [reflexivity|].
    now apply backfill_last.
  - intros sv s1. unfold run_backfillStep. now destruct (0 <? _)%nat.
Qed.

Lemma backfill_stores_returned_profile_witness :
  In "bob" (others (contributors
                      (aggregate_from skipUser initial
                         (getContributorData alice_bob_services))))
  /\ fst (snd (backfillStep alice_bob_services
                 (aggregate_from skipUser initial
                    (getContributorData alice_bob_services)))) !! "bob"
     = Some (fresh_profile (AccountProfile (profile_of "bob"))).
Proof.
  assert (H : In "bob" (others (contributors
                (aggregate_from skipUser initial
                   (getContributorData alice_bob_services)))))
    by (now left).
  split; [exact H|].
  refine (proj2 (proj2 (proj1 (proj2 backfill_stores_returned_profile)
                   alice_bob_services _ "bob" (profile_of "bob") [] []
                   H _ _ _ _))).
  - reflexivity.
  - reflexivity.
  - intros v [].
  - intros v [<-|[]]. discriminate.
Defined.

(** ** The calls a run makes *)

Lemma finish_calls (made : list Call) (c : Contributors)
  (table : gmap string Profile) :
  calls (finish made c table) = made.
Proof. unfold finish. now destruct (render c table []) as [[? ?]|]. Qed.

Lemma finish_final (made : list Call) (c : Contributors)
  (table : gmap string Profile) :
  final (finish made c table) = {| contributors := c; userData := table |}.
Proof. unfold finish. now destruct (render c table []) as [[? ?]|]. Qed.



Definition no_contributions : ContributorData :=
  {| commits := []; reviews := []; comments := [];
     closingIssuesReferences := [] |}.

Definition quiet_services : Services :=
  {| getContributorData := no_contributions;
     getUsersData := List.map profile_of;
     getWPOrgData := fun _ => ∅ |}.



Definition alice_only_services : Services :=
  {| getContributorData :=
       {| commits := [{| user := Some alice_account; author_name := "Alice";
                         author_email := "alice@example.org" |}];
          reviews := ["alice"]; comments := [];
          closingIssuesReferences := [] |};
     getUsersData := List.map profile_of;
     getWPOrgData := fun _ => {[ "alice" := Linked "alice-wp" ]} |}.


(** ** Directory merge and rendering *)

(** The lines of a rendered text. *)
Fixpoint split_lines (s : string) : list string :=
  match s with
  | EmptyString => [EmptyString]
  | String c rest =>
      if Ascii.eqb c (ascii_of_nat 10) then EmptyString :: split_lines rest
      else match split_lines rest with
           | [] => [String c EmptyString]
           | l :: ls => String c l :: ls
           end
  end.

Lemma mapM_ext {A B : Type} (f g : A -> Render B) (xs : list A) :
  (forall x, In x xs -> f x = g x) -> mapM f xs = mapM g xs.
Proof.
  induction xs as [|x xs IH]; intros H; simpl; [reflexivity|].
  rewrite (H x) by (now left). rewrite IH; [reflexivity|].
  intros y Hy. apply H. now right.
Qed.

(** The renderer reads the table at the members of the sets only. *)
Lemma render_ext (c : Contributors) (t1 t2 : gmap string Profile) :
  (forall k, In k (githubUsers c) -> t1 !! k = t2 !! k) ->
  render c t1 = render c t2.
Proof.
  intros H. unfold render. f_equal. apply mapM_ext. intros t _.
  unfold propsSection. destruct (Js.strict_eq_zero _); [reflexivity|].
  f_equal. apply mapM_ext. intros k Hk. unfold propsEntry.
  rewrite (H k); [reflexivity|]. unfold githubUsers. rewrite !in_app_iff.
  destruct t; simpl in Hk; tauto.
Qed.

Lemma mergeDirectory_lookup (wp : gmap string DirectoryEntry)
  (table : gmap string Profile) (k : string) :
  mergeDirectory wp table !! k
  = (fun p => match wp !! k with
              | Some (Linked slug) =>
                  {| profile_data := profile_data p; dotOrg := Some slug |}
              | _ => p
              end) <$> table !! k.
Proof.
  unfold mergeDirectory. rewrite map_lookup_imap.
  now destruct (table !! k).
Qed.

(** The directory answer of the round trip. *)
Definition alice_linked_bob_not : gmap string DirectoryEntry :=
  {[ "alice" := Linked "alice-wp"; "bob" := NotLinked ]}.

(** C4.  Let alice and bob be the contributors (each a member of one
    category set, whichever), both with a profile, bob's without a handle.
    When the directory lookup answers
    [{ "alice": { "slug": "alice-wp" }, "bob": false }], the renderer
    returns a text with exactly one line
    ["Co-authored-by: alice <alice-wp@git.wordpress.org>"] and no trailer
    line for bob, and [unconnectedUsers] ends as [["bob"]]. *)
Theorem directory_round_trip (c : Contributors)
  (table : gmap string Profile) (pa pb : Profile) :
  githubUsers c ≡ₚ ["alice"; "bob"] ->
  table !! "alice" = Some pa ->
  table !! "bob" = Some pb ->
  dotOrg pb = None ->
  exists text,
    render c (mergeDirectory alice_linked_bob_not table) [] = Some (text, ["bob"])
    /\ count_occ string_dec (split_lines text)
         "Co-authored-by: alice <alice-wp@git.wordpress.org>" = 1
    /\ forall handle, ~ In (trailer "bob" handle) (split_lines text).
Proof.
  intros Hperm Ha Hb Hnone.
  destruct pb as [pd h]. cbn [dotOrg] in Hnone. subst h.
  rewrite (render_ext c _
             {[ "alice" := {| profile_data := profile_data pa;
                              dotOrg := Some "alice-wp" |};
                "bob" := {| profile_data := pd; dotOrg := None |} ]}).
  2: { intros k Hk. rewrite mergeDirectory_lookup.
       apply (Permutation_in _ Hperm) in Hk.
       destruct Hk as [<-|[<-|[]]].
       - rewrite Ha. reflexivity.
       - rewrite Hb. reflexivity. }
  clear Ha Hb table.
  apply Permutation_sym, Permutation_length_2_inv in Hperm.
  destruct c as [l1 l2 l3 l4]. unfold githubUsers in Hperm.
  cbn [committers reviewers commenters reporters] in Hperm.
  destruct l1 as [|x1 [|y1 [|? ?]]], l2 as [|x2 [|y2 [|? ?]]],
           l3 as [|x3 [|y3 [|? ?]]], l4 as [|x4 [|y4 [|? ?]]];
    simpl in Hperm; destruct Hperm as [H|H]; try discriminate H;
    simplify_eq.
  all: eexists; split; [vm_compute; reflexivity|].
  all: split; [vm_compute; reflexivity|].
  all: intros handle Hin; unfold trailer in Hin; simpl in Hin;
       intuition discriminate.
Qed.

Definition alice_and_bob : Contributors :=
  {| committers := ["alice"]; reviewers := ["bob"]; commenters := [];
     reporters := [] |}.

Definition alice_and_bob_profiles : gmap string Profile :=
  {[ "alice" := fresh_profile (AccountProfile alice_account);
     "bob" := fresh_profile (AccountProfile (profile_of "bob")) ]}.

Lemma directory_round_trip_witness :
  exists text,
    render alice_and_bob
           (mergeDirectory alice_linked_bob_not alice_and_bob_profiles) []
    = Some (text, ["bob"])
    /\ count_occ string_dec (split_lines text)
         "Co-authored-by: alice <alice-wp@git.wordpress.org>" = 1
    /\ forall handle, ~ In (trailer "bob" handle) (split_lines text).
Proof.
  apply (directory_round_trip alice_and_bob alice_and_bob_profiles
           (fresh_profile (AccountProfile alice_account))
           (fresh_profile (AccountProfile (profile_of "bob")))).
  - reflexivity.
  - reflexivity.
  - reflexivity.
  - reflexivity.
Defined.

(** The same round trip through the whole of [getContributorsList]: alice
    commits, bob reviews, the batched request returns bob's profile and the
    directory knows alice only. *)
Example round_trip_end_to_end :
  unconnectedUsers (getContributorsList alice_bob_services initial) = ["bob"]
  /\ split_lines
       match outcome (getContributorsList alice_bob_services initial) with
       | Returned (Some text) => text
       | _ => ""
       end
     = ["# Committers";
        "Co-authored-by: alice <alice-wp@git.wordpress.org>"; "";
        "# Reviewers"; ""; "";
        "# Commenters"; ""; "";
        "# Reporters"; ""].
Proof. split; vm_compute; reflexivity. Qed.

(** ** Empty categories *)

Definition four_bare_headers : string :=
  "# Committers" +:+ newline +:+ newline +:+ newline
  +:+ "# Reviewers" +:+ newline +:+ newline +:+ newline
  +:+ "# Commenters" +:+ newline +:+ newline +:+ newline
  +:+ "# Reporters" +:+ newline.

(** C5, the code at the failing inputs.  The guard of the renderer compares
    [contributors[ priority ].length] with [0]; a [Set] has no [length], so
    the guard never fires and a header is written for every category:
    - with alice as the only contributor, [getContributorsList] returns her
      section followed by the bare headers of the three empty categories;
    - with all four sets empty the renderer returns the four bare headers,
      whatever the table holds, and so does [run] of src/index.js on an
      input without contributions;
    - [getContributorsList] alone returns [undefined] on that input, at its
      early return. *)
Theorem empty_categories_get_headers :
  outcome (getContributorsList alice_only_services initial)
  = Returned (Some
      ("# Committers" +:+ newline
       +:+ "Co-authored-by: alice <alice-wp@git.wordpress.org>"
       +:+ newline +:+ newline
       +:+ "# Reviewers" +:+ newline +:+ newline +:+ newline
       +:+ "# Commenters" +:+ newline +:+ newline +:+ newline
       +:+ "# Reporters" +:+ newline))
  /\ (forall table,
        render (contributors initial) table [] = Some (four_bare_headers, []))
  /\ outcome (run quiet_services initial) = Returned (Some four_bare_headers)
  /\ outcome (getContributorsList quiet_services initial) = Returned None.
Proof.
  split; [vm_compute; reflexivity|]. split; [intros table; reflexivity|].
  split; [vm_compute; reflexivity|]. reflexivity.
Qed.

(** ** Two runs in one process *)

Lemma pipeline_contributors (p : Pipeline) (sv : Services) (s : State) :
  contributors (final (pipeline p sv s))
  = contributors (pass_state (pass (skip_of p) s (getContributorData sv))).
Proof.
  destruct p; cbn [pipeline skip_of].
  - unfold run. destruct (pass _ s _) as [s1|s']; [|reflexivity].
    unfold run_afterPass. now rewrite finish_final.
  - unfold getContributorsList. destruct (pass _ s _) as [s1|s'];
      [|reflexivity].
    unfold afterPass. destruct (snd (snd _)); [reflexivity|].
    destruct (_ =? 0)%nat; [reflexivity|]. now rewrite finish_final.
Qed.

Lemma pass_state_grows (skip : Contributors -> string -> Js.value)
  (s : State) (d : ContributorData) :
  grows (contributors s) (contributors (pass_state (pass skip s d))).
Proof.
  destruct (pass skip s d) as [s1|s'] eqn:E; cbn [pass_state].
  - apply pass_completed in E. subst s1. apply aggregate_grows.
  - apply pass_thrown in E as (pre & a & post & _ & _ & -> & _).
    apply commits_grow.
Qed.

Lemma pass_state_settled (skip : Contributors -> string -> Js.value)
  (s : State) (d : ContributorData) (k : string) :
  (forall c u, Js.truthy (skip c u) = false ->
               ~ In u skippedUsers /\ absent c u) ->
  ~ In k (fallback_emails d) ->
  settled k (contributors s) (contributors (pass_state (pass skip s d))).
Proof.
  intros Hs Hk. destruct (pass skip s d) as [s1|s'] eqn:E; cbn [pass_state].
  - apply pass_completed in E. subst s1. now apply aggregate_settled.
  - apply pass_thrown in E as (pre & a & post & Hd & _ & -> & _).
    apply commits_settled; [exact Hs|]. intros b Hb Hu ->. apply Hk.
    apply fallback_emails_In. exists b. rewrite Hd.
    rewrite in_app_iff in *. cbn [In] in *. intuition.
Qed.

Lemma insert_keeps_key (table : gmap string Profile) (k k' : string)
  (v : Profile) :
  is_Some (table !! k) -> is_Some (<[k' := v]> table !! k).
Proof.
  intros H. destruct (decide (k' = k)) as [->|Hne].
  - rewrite lookup_insert_eq. eauto.
  - now rewrite lookup_insert_ne.
Qed.

Lemma commits_keep_keys (skip : Contributors -> string -> Js.value)
  (k : string) (cs : list GitActor) :
  forall s, is_Some (userData s !! k) ->
            is_Some (userData (fold_left (processCommit skip) cs s) !! k).
Proof.
  induction cs as [|a cs IH]; intros s H; simpl; [exact H|].
  apply IH. unfold processCommit. destruct (user a) as [u|].
  - destruct (Js.truthy _); [exact H|]. now apply insert_keeps_key.
  - now apply insert_keeps_key.
Qed.


Lemma mergeDirectory_keeps_keys (wp : gmap string DirectoryEntry)
  (k : string) (table : gmap string Profile) :
  is_Some (table !! k) -> is_Some (mergeDirectory wp table !! k).
Proof.
  intros [v Hv]. rewrite mergeDirectory_lookup, Hv. simpl. eauto.
Qed.

Lemma store_keeps_keys (k : string) (response : list User) :
  forall table, is_Some (table !! k) ->
                is_Some (fst (backfill response table) !! k).
Proof.
  induction response as [|u us IH]; intros table H; simpl; [exact H|].
  destruct (Array_length (login u)); [exact H|].
  apply IH. now apply insert_keeps_key.
Qed.

Lemma pass_state_keeps_keys (skip : Contributors -> string -> Js.value)
  (s : State) (d : ContributorData) (k : string) :
  is_Some (userData s !! k) ->
  is_Some (userData (pass_state (pass skip s d)) !! k).
Proof.
  intros H. destruct (pass skip s d) as [s1|s'] eqn:E; cbn [pass_state].
  - apply pass_completed in E. subst s1. unfold aggregate_from.
    cbn [userData]. now apply commits_keep_keys.
  - apply pass_thrown in E as (pre & a & post & _ & _ & _ & ->).
    now apply commits_keep_keys.
Qed.

Lemma pipeline_keeps_keys (p : Pipeline) (sv : Services) (s : State)
  (k : string) :
  is_Some (userData s !! k) ->
  is_Some (userData (final (pipeline p sv s)) !! k).
Proof.
  intros H.
  pose proof (pass_state_keeps_keys (skip_of p) s (getContributorData sv) k H)
    as H1.
  destruct p; cbn [pipeline skip_of] in *.
  - unfold run. destruct (pass _ s _) as [s1|s']; [|exact H1].
    cbn [pass_state] in H1. unfold run_afterPass. rewrite finish_final.
    cbn [userData]. apply mergeDirectory_keeps_keys. unfold run_backfillStep.
    now destruct (0 <? _)%nat.
  - unfold getContributorsList. destruct (pass _ s _) as [s1|s'];
      [|exact H1]. cbn [pass_state] in H1.
    assert (H2 : is_Some (fst (snd (backfillStep sv s1)) !! k)).
    { unfold backfillStep. destruct (0 <? _)%nat; cbn [fst snd]; [|exact H1].
      now apply store_keeps_keys. }
    unfold afterPass. destruct (snd (snd _)); [exact H2|].
    destruct (_ =? 0)%nat; [exact H2|].
    rewrite finish_final. cbn [userData].
    now apply mergeDirectory_keeps_keys.
Qed.

(** The claim word for word: what a second run returns is what it would
    return on a fresh module. *)
Definition second_run_is_fresh : Prop :=
  forall p sv1 sv2,
    outcome (second_run p sv1 sv2) = outcome (pipeline p sv2 initial).

(** A first pull request reviewed by alice, a second one she commits to. *)
Definition alice_reviews : Services :=
  {| getContributorData :=
       {| commits := []; reviews := ["alice"]; comments := [];
          closingIssuesReferences := [] |};
     getUsersData := List.map profile_of;
     getWPOrgData := fun _ => {[ "alice" := Linked "alice-wp" ]} |}.

(** C9, counterexample.  [getContributorsList] run for a pull request that
    alice reviewed and then, in the same process, for one she committed to:
    [contributors] still lists her as a reviewer, [skipUser] finds her
    already present, and the second text credits her under Reviewers; on a
    fresh module the same input credits her under Committers. *)
Lemma second_run_sees_first :
  contributors (final (second_run ContributorsList alice_reviews
                         alice_only_services))
  = {| committers := []; reviewers := ["alice"]; commenters := [];
       reporters := [] |}
  /\ contributors (final (pipeline ContributorsList alice_only_services
                            initial))
     = {| committers := ["alice"]; reviewers := []; commenters := [];
          reporters := [] |}
  /\ outcome (second_run ContributorsList alice_reviews alice_only_services)
     <> outcome (pipeline ContributorsList alice_only_services initial)
  /\ ~ second_run_is_fresh.
Proof.
  assert (H : outcome (second_run ContributorsList alice_reviews
                         alice_only_services)
              <> outcome (pipeline ContributorsList alice_only_services
                            initial)) by (vm_compute; discriminate).
  split; [vm_compute; reflexivity|]. split; [vm_compute; reflexivity|].
  split; [exact H|]. intros Hc. apply H, Hc.
Qed.

(** C9, as amended.  The category sets and the profile table are
    module-level and are never reset: the second of two runs in one process
    starts from the state the first one left.  Every membership recorded by
    the first run is still there after the second, every key credited by the
    first run keeps exactly its categories in the second (unless the second
    input carries it as the email of a commit without an account), and every
    key of the profile table stays in the table. *)
Theorem state_persists_across_runs (p : Pipeline) (sv1 sv2 : Services) :
  let first := final (pipeline p sv1 initial) in
  let second := final (second_run p sv1 sv2) in
  (forall t k, mem (contributors first) t k = true ->
               mem (contributors second) t k = true)
  /\ (forall k, memberships (contributors first) k <> [] ->
                ~ In k (fallback_emails (getContributorData sv2)) ->
                memberships (contributors second) k
                = memberships (contributors first) k)
  /\ (forall k, is_Some (userData first !! k) ->
                is_Some (userData second !! k)).
Proof.
  intros first second. unfold second, second_run. fold first.
  rewrite pipeline_contributors. split; [|split].
  - intros t k. apply pass_state_grows.
  - intros k Hk Hn. apply memberships_ext.
    destruct (pass_state_settled (skip_of p) first (getContributorData sv2)
                k (skip_of_sound p) Hn) as (_ & P & _).
    apply P. destruct (absent_dec (contributors first) k) as [Ha|Hp];
      [|exact Hp]. apply memberships_nil in Ha. contradiction.
  - intros k. apply pipeline_keeps_keys.
Qed.

Lemma state_persists_across_runs_witness :
  memberships (contributors (final (pipeline ContributorsList alice_reviews
                                      initial))) "alice" <> []
  /\ ~ In "alice" (fallback_emails (getContributorData alice_only_services))
  /\ memberships
       (contributors (final (second_run ContributorsList alice_reviews
                               alice_only_services))) "alice"
     = memberships
         (contributors (final (pipeline ContributorsList alice_reviews
                                 initial))) "alice".
Proof.
  assert (H1 : memberships
                 (contributors (final (pipeline ContributorsList
                                         alice_reviews initial))) "alice"
               <> []) by (vm_compute; discriminate).
  assert (H2 : ~ In "alice" (fallback_emails
                               (getContributorData alice_only_services)))
    by (vm_compute; tauto).
  split; [exact H1|]. split; [exact H2|].
  exact (proj1 (proj2 (state_persists_across_runs ContributorsList
                         alice_reviews alice_only_services)) "alice" H1 H2).
Defined.

(** * More of the pipeline *)

(** ** The verdicts of the two policies *)

Lemma alreadyPresent_loop_value (c : Contributors) (u : string)
  (types : list ContributorType) :
  alreadyPresent_loop c u types
  = if existsb (fun t => Js.has (members c t) u) types
    then Js.VBool true else Js.VUndefined.
Proof.
  induction types as [|t ts IH]; simpl; [reflexivity|].
  destruct (Js.has (members c t) u); simpl; [reflexivity|exact IH].
Qed.

Lemma skipUser_value (c : Contributors) (u : string) :
  skipUser c u
  = Js.VBool (String.eqb "github-actions" u
              || existsb (fun t => Js.has (members c t) u) contributorTypes).
Proof.
  unfold skipUser, contributorAlreadyPresent, Js.not.
  rewrite alreadyPresent_loop_value.
  generalize (existsb (fun t => Js.has (members c t) u) contributorTypes).
  intros present. unfold Js.indexOf, skippedUsers. cbn [Js.indexOf_from].
  destruct (String.eqb "github-actions" u), present; reflexivity.
Qed.

(** X1.  The synchronous [skipUser] always answers with a boolean: [true]
    exactly when the login is ["github-actions"] or a member of one of the
    four sets, [false] otherwise.  [contributorAlreadyPresent] answers
    [true] for a member and [undefined], not [false], for anybody else. *)
Theorem skipUser_verdict (c : Contributors) (u : string) :
  skipUser c u
  = Js.VBool (String.eqb "github-actions" u
              || existsb (fun t => Js.has (members c t) u) contributorTypes)
  /\ contributorAlreadyPresent c u
     = (if existsb (fun t => Js.has (members c t) u) contributorTypes
        then Js.VBool true else Js.VUndefined).
Proof.
  split; [apply skipUser_value | apply alreadyPresent_loop_value].
Qed.

(** ** Aliases of the batched request *)

Fixpoint all_chars (f : ascii -> bool) (s : string) : bool :=
  match s with
  | EmptyString => true
  | String c rest => f c && all_chars f rest
  end.

(** Characters an alias can be traced back from: anything but ['_'], ['.']
    and ['/'] (a hyphen is fine). *)
Definition traceable (c : ascii) : bool :=
  negb (Ascii.eqb c "_" || Ascii.eqb c "." || Ascii.eqb c "/").

Lemma replace_class_injective (s1 s2 : string) :
  all_chars traceable s1 = true -> all_chars traceable s2 = true ->
  replace_class s1 = replace_class s2 -> s1 = s2.
Proof.
  revert s2. induction s1 as [|c1 s1 IH]; intros [|c2 s2]; simpl;
    try discriminate; [reflexivity|].
  intros [H1 R1]%andb_true_iff [H2 R2]%andb_true_iff [= Hc Hs].
  f_equal; [|now apply IH].
  unfold traceable in H1, H2. unfold in_class in Hc.
  apply negb_true_iff in H1, H2.
  apply orb_false_iff in H1 as [[U1 D1]%orb_false_iff S1].
  apply orb_false_iff in H2 as [[U2 D2]%orb_false_iff S2].
  rewrite D1, S1, D2, S2 in Hc. simpl in Hc.
  destruct (Ascii.eqb_spec c1 "-") as [->|N1],
           (Ascii.eqb_spec c2 "-") as [->|N2]; try reflexivity.
  - subst c2. discriminate U2.
  - subst c1. discriminate U1.
  - exact Hc.
Qed.

Lemma replace_class_clean (s : string) :
  all_chars (fun c => negb (in_class c)) (replace_class s) = true.
Proof.
  induction s as [|c s IH]; [reflexivity|]. cbn [replace_class all_chars].
  rewrite IH, andb_true_r.
  destruct (in_class c) eqn:E; [reflexivity|]. now rewrite E.
Qed.

(** X2.  An alias holds none of ['.'], ['/'], ['-'].  Two logins written
    without ['_'], ['.'] and ['/'] (letters, digits and hyphens, say) get the
    same alias only when they are the same login; without that proviso
    aliases collide, as those of ["a-b"] and ["a.b"] do. *)
Theorem escapeForGql_aliases :
  (forall s, all_chars (fun c => negb (in_class c)) (escapeForGql s) = true)
  /\ (forall s1 s2,
        all_chars traceable s1 = true -> all_chars traceable s2 = true ->
        escapeForGql s1 = escapeForGql s2 -> s1 = s2)
  /\ escapeForGql "a-b" = escapeForGql "a.b".
Proof.
  split; [|split; [|reflexivity]].
  - intros s. change (escapeForGql s) with (String "_" (replace_class s)).
    cbn [all_chars]. apply andb_true_iff. split; [reflexivity|].
    apply replace_class_clean.
  - intros s1 s2 H1 H2 [= H]. now apply replace_class_injective.
Qed.

Lemma escapeForGql_aliases_witness :
  all_chars traceable "octo-cat" = true
  /\ escapeForGql "octo-cat" = escapeForGql "octo-cat"
  /\ "octo-cat" = "octo-cat".
Proof.
  split; [reflexivity|]. split; [reflexivity|].
  exact (proj1 (proj2 escapeForGql_aliases) "octo-cat" "octo-cat"
           eq_refl eq_refl eq_refl).
Defined.

(** ** What [run] of src/index.js records *)



(** ** The sets as lists *)



Section Lists.

Variable skip : Contributors -> string -> Js.value.






End Lists.












(** ** The table after the pass *)











(** X6.  After a fresh run of either pipeline the list handed to the
    directory lookup, [githubUsers], names nobody twice. *)
Theorem githubUsers_NoDup (p : Pipeline) (d : ContributorData) :
  NoDup (githubUsers (contributors (aggregate p d))).
Proof.
  pose proof (aggregate_NoDup (skip_of p) initial d initial_NoDup) as Hn.
  pose proof (fun k => fresh_at_most_one p d k) as Ha.
  fold (aggregate p d) in Hn.
  set (c := contributors (aggregate p d)) in *.
  assert (Hd : forall t1 t2 x, t1 <> t2 ->
                 x ∈ members c t1 -> x ∉ members c t2).
  { intros t1 t2 x Hne H1 H2. apply Hne.
    apply (Ha x); unfold mem; apply has_In, list_elem_of_In; assumption. }
  unfold githubUsers. rewrite !NoDup_app. repeat split.
  - apply (Hn Committers).
  - intros x Hx. rewrite !elem_of_app. intros [H|[H|H]].
    + now apply (Hd Committers Reviewers x).
    + now apply (Hd Committers Commenters x).
    + now apply (Hd Committers Reporters x).
  - apply (Hn Reviewers).
  - intros x Hx. rewrite !elem_of_app. intros [H|H].
    + now apply (Hd Reviewers Commenters x).
    + now apply (Hd Reviewers Reporters x).
  - apply (Hn Commenters).
  - intros x Hx. now apply (Hd Commenters Reporters x).
  - apply (Hn Reporters).
Qed.

(** ** The merge and the backfill, key by key *)

(** X7.  The directory merge keeps the keys of the table and the profile
    under each of them; it sets the handle of a key the answer maps to a
    record and leaves every other handle, an earlier one included, as it
    was; keys only the answer knows get no entry; and merging the same
    answer twice changes nothing more. *)
Theorem mergeDirectory_keywise (wp : gmap string DirectoryEntry)
  (table : gmap string Profile) :
  (forall k,
      mergeDirectory wp table !! k
      = (fun p =>
           {| profile_data := profile_data p;
              dotOrg := match wp !! k with
                        | Some (Linked slug) => Some slug
                        | _ => dotOrg p
                        end |}) <$> table !! k)
  /\ mergeDirectory wp (mergeDirectory wp table) = mergeDirectory wp table.
Proof.
  assert (H : forall t k,
             mergeDirectory wp t !! k
             = (fun p =>
                  {| profile_data := profile_data p;
                     dotOrg := match wp !! k with
                               | Some (Linked slug) => Some slug
                               | _ => dotOrg p
                               end |}) <$> t !! k).
  { intros t k. rewrite mergeDirectory_lookup.
    destruct (t !! k) as [[pd h]|]; [|reflexivity]. simpl.
    destruct (wp !! k) as [[slug|]|]; reflexivity. }
  split; [apply H|].
  apply map_eq. intros k. rewrite !H.
  destruct (table !! k) as [[pd h]|]; [|reflexivity]. simpl.
  destruct (wp !! k) as [[slug|]|]; reflexivity.
Qed.

Lemma backfill_None (k : string) (response : list User) :
  forall table,
    store_records response table !! k = None
    <-> table !! k = None /\ forall u, In u response -> login u <> k.
Proof.
  unfold store_records. induction response as [|u us IH]; intros table; simpl.
  - intuition.
  - rewrite IH, lookup_insert_None. intuition (subst; eauto).
Qed.

Lemma backfill_Some (k : string) (response : list User) :
  forall table,
    (exists u, In u response /\ login u = k) ->
    exists u, In u response /\ login u = k
              /\ store_records response table !! k
                 = Some (fresh_profile (AccountProfile u)).
Proof.
  induction response as [|u us IH] using rev_ind; intros table (v & Hv & Hl);
    [destruct Hv|].
  unfold store_records. rewrite fold_left_app. cbn [fold_left].
  destruct (decide (login u = k)) as [E|N].
  - exists u. rewrite in_app_iff. split; [right; now left|].
    split; [exact E|]. rewrite E. apply lookup_insert_eq.
  - rewrite lookup_insert_ne by exact N.
    apply in_app_iff in Hv as [Hv|[->|[]]]; [|contradiction].
    destruct (IH table (ex_intro _ v (conj Hv Hl))) as (w & Hw & Hlw & E).
    exists w. rewrite in_app_iff. auto.
Qed.

Lemma backfill_thrown_iff (response : list User) :
  forall table,
    snd (backfill response table) = true
    <-> exists u, In u response /\ login u = "length".
Proof.
  induction response as [|u us IH]; intros table; simpl.
  - split; [discriminate|intros (? & [] & _)].
  - destruct (Array_length (login u)) eqn:E.
    + apply Array_length_iff in E. split; [eauto|reflexivity].
    + rewrite IH. split.
      * intros (v & Hv & Hl). eauto.
      * intros (v & [->|Hv] & Hl); [|eauto].
        apply Array_length_iff in Hl. congruence.
Qed.

Lemma backfill_length (response : list User) :
  forall table, fst (backfill response table) !! "length" = table !! "length".
Proof.
  induction response as [|u us IH]; intros table; simpl; [reflexivity|].
  destruct (Array_length (login u)) eqn:E; [reflexivity|].
  rewrite IH. apply lookup_insert_ne. intros Hl.
  apply Array_length_iff in Hl. congruence.
Qed.

(** X8.  The backfill loop of [getContributorsList] ends in a [RangeError]
    exactly when a returned record has the login ["length"], and it never
    changes what the table holds under that name.  When it runs to its end,
    a key has no entry exactly when it had none and no returned record
    carries it as [login]; a key some record carries holds one of those
    records, and without a handle, whatever was stored under it before. *)
Theorem backfill_keywise (response : list User)
  (table : gmap string Profile) :
  (snd (backfill response table) = true
   <-> exists u, In u response /\ login u = "length")
  /\ fst (backfill response table) !! "length" = table !! "length"
  /\ (snd (backfill response table) = false ->
      forall k,
        (fst (backfill response table) !! k = None
         <-> table !! k = None /\ forall u, In u response -> login u <> k)
        /\ ((exists u, In u response /\ login u = k) ->
            exists u, In u response /\ login u = k
                      /\ fst (backfill response table) !! k
                         = Some {| profile_data := AccountProfile u;
                                   dotOrg := None |})).
Proof.
  split; [apply backfill_thrown_iff|]. split; [apply backfill_length|].
  intros Hs k.
  assert (Hclean : forall v, In v response -> login v <> "length").
  { intros v Hv Hl.
    assert (snd (backfill response table) = true)
      by (apply backfill_thrown_iff; eauto). congruence. }
  rewrite backfill_clean by exact Hclean. cbn [fst].
  split; [apply backfill_None | apply backfill_Some].
Qed.

Lemma backfill_keywise_witness :
  snd (backfill [profile_of "bob"]
         {[ "bob" := {| profile_data := AuthorProfile "Bob" "bob";
                        dotOrg := Some "bobwp" |} ]}) = false
  /\ (exists u, In u [profile_of "bob"] /\ login u = "bob")
  /\ exists u, In u [profile_of "bob"] /\ login u = "bob"
               /\ fst (backfill [profile_of "bob"]
                    {[ "bob" := {| profile_data := AuthorProfile "Bob" "bob";
                                   dotOrg := Some "bobwp" |} ]}) !! "bob"
                  = Some {| profile_data := AccountProfile u;
                            dotOrg := None |}.
Proof.
  assert (H : exists u, In u [profile_of "bob"] /\ login u = "bob")
    by (exists (profile_of "bob"); split; [now left|reflexivity]).
  split; [reflexivity|]. split; [exact H|].
  exact (proj2 (proj2 (proj2 (backfill_keywise [profile_of "bob"]
                  {[ "bob" := {| profile_data := AuthorProfile "Bob" "bob";
                                 dotOrg := Some "bobwp" |} ]})) eq_refl "bob")
           H).
Defined.

(** ** The renderer without its monad *)

(** The handle the renderer finds for a user, the value its inner callback
    returns, and a section as a plain string. *)
Definition handle_of (table : gmap string Profile) (k : string)
  : option string :=
  table !! k ≫= dotOrg.

Definition entry_of (table : gmap string Profile) (k : string)
  : option string :=
  trailer k <$> handle_of table k.

Definition without_handle (table : gmap string Profile) (xs : list string)
  : list string :=
  List.filter (fun k => match handle_of table k with
                        | None => true
                        | Some _ => false
                        end) xs.

Definition section_text (c : Contributors) (table : gmap string Profile)
  (t : ContributorType) : string :=
  header t +:+ Js.join newline (List.map (entry_of table) (members c t)).

Definition rendered_text (c : Contributors) (table : gmap string Profile)
  : string :=
  Js.join (newline +:+ newline)
          (List.map (fun t => Some (section_text c table t)) contributorTypes).

Definition answered (table : gmap string Profile) (k : string) : Prop :=
  is_Some (table !! k) \/ Array_answers k = true.

Lemma mapM_propsEntry (table : gmap string Profile) (xs : list string) :
  (forall k, In k xs -> answered table k) ->
  forall u,
    mapM (propsEntry table) xs u
    = Some (List.map (entry_of table) xs, u ++ without_handle table xs).
Proof.
  induction xs as [|x xs IH]; intros H u.
  - simpl. unfold ret. now rewrite app_nil_r.
  - assert (Hx : table !! x ≫= dotOrg = None ->
                 propsEntry table x u = Some (None, u ++ [x])).
    { unfold propsEntry. destruct (table !! x) as [p|] eqn:Hp.
      - cbn [mbind option_bind]. now intros ->.
      - intros _. destruct (H x (or_introl eq_refl)) as [[? Hs]|Ha];
          [rewrite Hp in Hs; discriminate|]. now rewrite Ha. }
    cbn [mapM List.map]. unfold bind at 1.
    unfold entry_of at 1, handle_of at 1, without_handle, handle_of.
    cbn [List.filter].
    destruct (table !! x ≫= dotOrg) as [h|] eqn:Eh.
    + assert (propsEntry table x u = Some (Some (trailer x h), u)) as ->.
      { unfold propsEntry. destruct (table !! x) as [p|]; [|discriminate].
        cbn [mbind option_bind] in Eh. now rewrite Eh. }
      unfold bind, ret.
      rewrite IH by (intros k Hk; apply H; now right). reflexivity.
    + rewrite Hx by reflexivity. unfold bind, ret.
      rewrite IH by (intros k Hk; apply H; now right).
      unfold without_handle, handle_of. cbn [fmap option_fmap option_map].
      now rewrite <- app_assoc.
Qed.

Lemma propsSection_ok (c : Contributors) (table : gmap string Profile)
  (t : ContributorType) (u : list string) :
  (forall k, In k (members c t) -> answered table k) ->
  propsSection c table t u
  = Some (section_text c table t, u ++ without_handle table (members c t)).
Proof.
  intros H. unfold propsSection. cbn [Js.Set_length Js.strict_eq_zero].
  unfold bind. rewrite mapM_propsEntry by exact H. reflexivity.
Qed.

Lemma render_ok (c : Contributors) (table : gmap string Profile)
  (u : list string) :
  (forall k, In k (githubUsers c) -> answered table k) ->
  render c table u
  = Some (rendered_text c table, u ++ without_handle table (githubUsers c)).
Proof.
  intros H.
  assert (Ht : forall t k, In k (members c t) -> answered table k).
  { intros t k Hk. apply H. unfold githubUsers. rewrite !in_app_iff.
    destruct t; simpl in Hk; tauto. }
  unfold render, contributorTypes. cbn [mapM]. unfold bind.
  rewrite !propsSection_ok by (apply Ht). unfold ret.
  unfold rendered_text, contributorTypes, githubUsers, without_handle.
  cbn [members List.map fmap list_fmap].
  rewrite !List.filter_app, <- !app_assoc. reflexivity.
Qed.




(** X9.  When every member of the four sets has an entry in the table, the
    renderer returns the four sections, each its header followed by one
    entry per member in set order (the trailer of a member with a handle,
    nothing for one without), joined by blank lines; and it appends to
    [unconnectedUsers] exactly the members without a handle, committers
    first, in set order. *)
Theorem render_text_and_unconnected (c : Contributors)
  (table : gmap string Profile) (u : list string) :
  (forall k, In k (githubUsers c) -> is_Some (table !! k)) ->
  render c table u
  = Some (rendered_text c table, u ++ without_handle table (githubUsers c)).
Proof. intros H. apply render_ok. intros k Hk. left. now apply H. Qed.

Lemma render_text_and_unconnected_witness :
  render alice_and_bob
         (mergeDirectory alice_linked_bob_not alice_and_bob_profiles) []
  = Some (rendered_text alice_and_bob
            (mergeDirectory alice_linked_bob_not alice_and_bob_profiles),
          [] ++ without_handle
                  (mergeDirectory alice_linked_bob_not alice_and_bob_profiles)
                  (githubUsers alice_and_bob)).
Proof.
  apply (render_text_and_unconnected alice_and_bob
           (mergeDirectory alice_linked_bob_not alice_and_bob_profiles) []).
  intros k [<-|[<-|[]]]; vm_compute; eauto.
Defined.



(** ** When a run throws *)

Lemma finish_outcome (made : list Call) (c : Contributors)
  (table : gmap string Profile) :
  outcome (finish made c table)
  = match render c table [] with
    | Some (text, _) => Returned (Some text)
    | None => Threw
    end.
Proof. unfold finish. now destruct (render c table []) as [[? ?]|]. Qed.










(** ** Every contributor is credited, and once *)

(** The logins of the five channels that go through [skipUser]. *)
Definition login_channels (d : ContributorData) : list string :=
  commit_logins d ++ reviews d ++ comments d ++ issue_authors d
  ++ issue_commenters d.

Lemma sync_issueComments_present (k : string) (xs : list string) :
  ~ In k skippedUsers -> In k xs ->
  forall c, exists t,
    mem (fold_left (processIssueComment skipUser) xs c) t k = true.
Proof.
  intros Hn. induction xs as [|x xs IH]; intros Hk c; [destruct Hk|].
  cbn [fold_left]. destruct Hk as [->|Hk]; [|now apply IH].
  assert (exists t, mem (processIssueComment skipUser c k) t k = true)
    as [t Ht].
  { unfold processIssueComment.
    destruct (Js.truthy (skipUser c k)) eqn:E.
    - now apply skipUser_true_present.
    - exists Commenters. rewrite mem_add_to, String.eqb_refl. simpl.
      apply orb_true_r. }
  exists t. revert Ht.
  apply (grows_fold (processIssueComment skipUser) xs
           (processIssueComment_grows skipUser)).
Qed.

Lemma sync_linkedIssue_present (k : string) (i : LinkedIssue)
  (c : Contributors) :
  ~ In k skippedUsers ->
  k = issue_author i \/ In k (issue_comments i) ->
  exists t, mem (processLinkedIssue skipUser c i) t k = true.
Proof.
  intros Hn [->|Hk]; unfold processLinkedIssue.
  - assert (exists t,
             mem (if Js.not (skipUser c (issue_author i))
                  then add_to Reporters (issue_author i) c else c)
                 t (issue_author i) = true) as [t Ht].
    { unfold Js.not.
      destruct (Js.truthy (skipUser c (issue_author i))) eqn:E; cbn [negb].
      - now apply skipUser_true_present.
      - exists Reporters. rewrite mem_add_to, String.eqb_refl. simpl.
        apply orb_true_r. }
    exists t. revert Ht.
    apply (grows_fold (processIssueComment skipUser) (issue_comments i)
             (processIssueComment_grows skipUser)).
  - now apply sync_issueComments_present.
Qed.

Lemma sync_issues_present (k : string) (issues : list LinkedIssue) :
  ~ In k skippedUsers ->
  In k (List.map issue_author issues)
  \/ In k (List.concat (List.map issue_comments issues)) ->
  forall c, exists t,
    mem (fold_left (processLinkedIssue skipUser) issues c) t k = true.
Proof.
  intros Hn. induction issues as [|i issues IH]; intros Hk c.
  { destruct Hk as [[]|[]]. }
  cbn [fold_left]. cbn [List.map List.concat In] in Hk.
  rewrite in_app_iff in Hk.
  assert (Hhere : k = issue_author i \/ In k (issue_comments i)
                  \/ (In k (List.map issue_author issues)
                      \/ In k (List.concat
                                 (List.map issue_comments issues))))
    by intuition auto.
  destruct Hhere as [H|[H|H]]; [| |now apply IH].
  all: destruct (sync_linkedIssue_present k i c Hn) as [t Ht];
    [auto|]; exists t; revert Ht;
    apply (issues_grow skipUser issues).
Qed.

Lemma sync_credited (d : ContributorData) (k : string) :
  ~ In k skippedUsers -> In k (login_channels d) ->
  exists t, mem (contributors (aggregate ContributorsList d)) t k = true.
Proof.
  intros Hn. unfold login_channels. rewrite !in_app_iff.
  intros [H|[H|[H|H]]].
  - exists Committers. apply (stage1_grows ContributorsList d).
    now apply sync_after_commits.
  - destruct (sync_filterThenAdd_present Reviewers k (reviews d)
                (contributors (fold_left (processCommit skipUser)
                                 (commits d) initial)) Hn H) as [t Ht].
    exists t. now apply (stage2_grows ContributorsList d).
  - destruct (sync_filterThenAdd_present Commenters k (comments d)
                (filterThenAdd skipUser Reviewers (reviews d)
                   (contributors (fold_left (processCommit skipUser)
                                    (commits d) initial))) Hn H) as [t Ht].
    exists t. now apply (stage3_grows ContributorsList d).
  - unfold aggregate, aggregate_from. cbn [contributors skip_of].
    apply sync_issues_present; [exact Hn|exact H].
Qed.




(** ** Running the pass again on the same data *)

Lemma filter_nothing {A : Type} (f : A -> bool) (xs : list A) :
  (forall x, In x xs -> f x = false) -> List.filter f xs = [].
Proof.
  induction xs as [|x xs IH]; intros H; simpl; [reflexivity|].
  rewrite H by (now left). apply IH. intros y Hy. apply H. now right.
Qed.

Lemma fold_left_id_in {A B : Type} (f : A -> B -> A) (xs : list B) (a : A) :
  (forall x, In x xs -> f a x = a) -> fold_left f xs a = a.
Proof.
  induction xs as [|x xs IH]; intros H; simpl; [reflexivity|].
  rewrite H by (now left). apply IH. intros y Hy. apply H. now right.
Qed.

Section Saturated.

Variable skip : Contributors -> string -> Js.value.
Variable d : ContributorData.
Variable c : Contributors.

Hypothesis emails_in : forall e, In e (fallback_emails d) ->
                                 mem c Committers e = true.
Hypothesis logins_skipped : forall k, In k (login_channels d) ->
                                      Js.truthy (skip c k) = true.

Lemma saturated_commits (cs : list GitActor) :
  (forall a, In a cs -> In a (commits d)) ->
  forall s, contributors s = c ->
            contributors (fold_left (processCommit skip) cs s) = c.
Proof.
  induction cs as [|a cs IH]; intros Hcs s Hs; simpl; [exact Hs|].
  apply IH; [intros b Hb; apply Hcs; now right|].
  assert (Ha : In a (commits d)) by (apply Hcs; now left).
  unfold processCommit. destruct (user a) as [u|] eqn:Hu.
  - rewrite Hs, logins_skipped; [exact Hs|].
    unfold login_channels. rewrite in_app_iff. left.
    apply commit_logins_In. eauto.
  - cbn [contributors]. rewrite Hs. apply add_to_present, emails_in.
    apply fallback_emails_In. eauto.
Qed.

Lemma saturated_filterThenAdd (t : ContributorType) (logins : list string) :
  (forall k, In k logins -> In k (login_channels d)) ->
  filterThenAdd skip t logins c = c.
Proof.
  intros H. unfold filterThenAdd. rewrite filter_nothing; [reflexivity|].
  intros x Hx. unfold Js.not. now rewrite logins_skipped by auto.
Qed.

Lemma saturated_issues (issues : list LinkedIssue) :
  (forall i, In i issues -> In i (closingIssuesReferences d)) ->
  fold_left (processLinkedIssue skip) issues c = c.
Proof.
  induction issues as [|i issues IH]; intros H; simpl; [reflexivity|].
  assert (Hi : In i (closingIssuesReferences d)) by (apply H; now left).
  assert (Hstep : processLinkedIssue skip c i = c).
  { unfold processLinkedIssue, Js.not. rewrite logins_skipped.
    - cbn [negb]. apply fold_left_id_in. intros x Hx.
      unfold processIssueComment. rewrite logins_skipped; [reflexivity|].
      unfold login_channels, issue_commenters. rewrite !in_app_iff.
      do 4 right. apply in_concat. exists (issue_comments i).
      split; [now apply in_map|exact Hx].
    - unfold login_channels, issue_authors. rewrite !in_app_iff.
      do 3 right. left. now apply in_map. }
  rewrite Hstep. apply IH. intros j Hj. apply H. now right.
Qed.

Lemma saturated_pass (s : State) :
  contributors s = c -> contributors (aggregate_from skip s d) = c.
Proof.
  intros Hs. unfold aggregate_from. cbn [contributors].
  rewrite (saturated_commits (commits d)) by auto.
  rewrite !saturated_filterThenAdd.
  - now apply saturated_issues.
  - intros k Hk. unfold login_channels. rewrite !in_app_iff. tauto.
  - intros k Hk. unfold login_channels. rewrite !in_app_iff. tauto.
Qed.

End Saturated.

Lemma pass_again_same_sets (p : Pipeline) (d : ContributorData)
  (s : State) :
  contributors s = contributors (aggregate p d) ->
  contributors (aggregate_from (skip_of p) s d)
  = contributors (aggregate p d).
Proof.
  apply saturated_pass.
  - intros e He. apply (stage1_grows p d). now apply email_after_commits.
  - intros k Hk. destruct p; [reflexivity|]. cbn [skip_of].
    destruct (Js.truthy (skipUser _ k)) eqn:E; [reflexivity|].
    apply skipUser_false_iff in E as [Hn Ha].
    destruct (sync_credited d k Hn Hk) as [t Ht].
    rewrite Ha in Ht. discriminate.
Qed.

Lemma fresh_saturated (p : Pipeline) (d : ContributorData) :
  (forall e, In e (fallback_emails d) ->
             mem (contributors (aggregate p d)) Committers e = true)
  /\ (forall k, In k (login_channels d) ->
                Js.truthy (skip_of p (contributors (aggregate p d)) k)
                = true).
Proof.
  split.
  - intros e He. apply (stage1_grows p d). now apply email_after_commits.
  - intros k Hk. destruct p; [reflexivity|]. cbn [skip_of].
    destruct (Js.truthy (skipUser _ k)) eqn:E; [reflexivity|].
    apply skipUser_false_iff in E as [Hn Ha].
    destruct (sync_credited d k Hn Hk) as [t Ht].
    rewrite Ha in Ht. discriminate.
Qed.

(** X14.  When the first run of either pipeline in a process gets through
    its pass, running it a second time for the same pull request, whatever
    the profile request and the directory answer each time, leaves every one
    of the four sets as the first run left it: same members, same order. *)
Theorem second_run_same_data_same_sets (p : Pipeline) (sv1 sv2 : Services)
  (s1 : State) :
  pass (skip_of p) initial (getContributorData sv1) = Completed s1 ->
  getContributorData sv2 = getContributorData sv1 ->
  contributors (final (second_run p sv1 sv2))
  = contributors (final (pipeline p sv1 initial)).
Proof.
  intros Hp Hd.
  assert (Hfirst : contributors (final (pipeline p sv1 initial))
                   = contributors (aggregate p (getContributorData sv1))).
  { rewrite pipeline_contributors, Hp. cbn [pass_state].
    apply pass_completed in Hp. now subst s1. }
  unfold second_run. rewrite !pipeline_contributors, Hd, Hp.
  cbn [pass_state]. apply pass_completed in Hp. subst s1.
  set (d := getContributorData sv1) in *.
  destruct (fresh_saturated p d) as [He Hl].
  destruct (pass (skip_of p) (final (pipeline p sv1 initial)) d)
    as [s2|s'] eqn:E; cbn [pass_state].
  - apply pass_completed in E. subst s2.
    now apply (pass_again_same_sets p d).
  - apply pass_thrown in E as (pre & a & post & Hc & _ & -> & _).
    apply (saturated_commits (skip_of p) d _ He Hl); [|exact Hfirst].
    intros b Hb. rewrite Hc. rewrite in_app_iff in *. cbn [In] in *.
    intuition.
Qed.

Lemma second_run_same_data_same_sets_witness :
  pass (skip_of ContributorsList) initial
       (getContributorData alice_bob_services)
  = Completed (aggregate ContributorsList
                 (getContributorData alice_bob_services))
  /\ contributors (final (second_run ContributorsList alice_bob_services
                            alice_bob_services))
     = contributors (final (pipeline ContributorsList alice_bob_services
                              initial)).
Proof.
  split; [reflexivity|].
  exact (second_run_same_data_same_sets ContributorsList alice_bob_services
           alice_bob_services _ eq_refl eq_refl).
Defined.

(** ** The requests of [getContributorsList] *)

Lemma backfill_thrown_existsb (response : list User) :
  forall table,
    snd (backfill response table)
    = existsb (fun u => Array_length (login u)) response.
Proof.
  induction response as [|u us IH]; intros table; simpl; [reflexivity|].
  destruct (Array_length (login u)); [reflexivity|apply IH].
Qed.

(** X15.  From any module state [getContributorsList] sends the
    contribution query first and, when a store of the commit loop throws,
    nothing more.  Otherwise it sends the profile request, once, for exactly
    the reviewers, commenters and reporters, when there is at least one, and
    stops there when a returned record has the login ["length"]; then the
    directory lookup, once, for the committers followed by those same
    users, when there is any contributor; and nothing else. *)
Theorem getContributorsList_calls (sv : Services) (s : State) :
  calls (getContributorsList sv s)
  = match pass skipUser s (getContributorData sv) with
    | RangeError _ => [ContributorQuery]
    | Completed s1 =>
        let c := contributors s1 in
        ContributorQuery
        :: match others c with
           | [] => match committers c with
                   | [] => []
                   | _ :: _ => [DirectoryLookup (committers c)]
                   end
           | _ :: _ =>
               ProfileRequest (others c)
               :: (if existsb (fun u => Array_length (login u))
                              (getUsersData sv (others c))
                   then []
                   else [DirectoryLookup (committers c ++ others c)])
           end
    end.
Proof.
  unfold getContributorsList.
  destruct (pass skipUser s (getContributorData sv)) as [s1|s'];
    [|reflexivity].
  cbv zeta. unfold afterPass, backfillStep.
  set (c := contributors s1).
  change (githubUsers c) with (committers c ++ others c).
  destruct (others c) as [|x xs] eqn:Ho.
  - cbn [length Nat.ltb Nat.leb fst snd]. rewrite app_nil_r.
    destruct (committers c) as [|y ys]; [reflexivity|].
    cbn [length Nat.eqb]. now rewrite finish_calls.
  - cbn [length Nat.ltb Nat.leb fst snd].
    rewrite backfill_thrown_existsb.
    destruct (existsb _ _); [reflexivity|].
    assert (Hl : (length (committers c ++ x :: xs) =? 0)%nat = false).
    { rewrite length_app. cbn [length]. apply Nat.eqb_neq. lia. }
    rewrite Hl. now rewrite finish_calls.
Qed.

(** ** A fresh run stores no handle of its own *)









(** ** When nothing is returned *)

Lemma nobody_credited_iff (d : ContributorData) :
  githubUsers (contributors (aggregate ContributorsList d)) = []
  <-> fallback_emails d = []
      /\ forall k, In k (login_channels d) -> In k skippedUsers.
Proof.
  set (c := contributors (aggregate ContributorsList d)).
  assert (Hmem : forall t k, mem c t k = true -> In k (githubUsers c)).
  { intros t k H. apply has_In in H. unfold githubUsers.
    rewrite !in_app_iff. destruct t; simpl in H; tauto. }
  split.
  - intros Hnil. split.
    + destruct (fallback_emails d) as [|e es] eqn:E; [reflexivity|].
      assert (He : In e (fallback_emails d)) by (rewrite E; now left).
      apply (email_after_commits ContributorsList) in He.
      apply (stage1_grows ContributorsList d), Hmem in He.
      fold c in He. rewrite Hnil in He. destruct He.
    + intros k Hk.
      destruct (In_dec string_dec k skippedUsers) as [Hs|Hn]; [exact Hs|].
      destruct (sync_credited d k Hn Hk) as [t Ht].
      apply Hmem in Ht. rewrite Hnil in Ht. destruct Ht.
  - intros [He Hl].
    destruct (githubUsers c) as [|k ks] eqn:E; [reflexivity|]. exfalso.
    assert (Hk : In k (githubUsers c)) by (rewrite E; now left).
    assert (exists t, mem c t k = true) as [t Ht].
    { unfold githubUsers in Hk. rewrite !in_app_iff in Hk.
      destruct Hk as [Hk|[Hk|[Hk|Hk]]]; apply has_In in Hk;
        [exists Committers|exists Reviewers|exists Commenters
        |exists Reporters]; exact Hk. }
    pose proof (aggregate_source skipUser d t k Ht) as Hsrc.
    assert (Hin : In k (login_channels d)).
    { unfold login_channels. rewrite !in_app_iff.
      destruct t; simpl in Hsrc; unfold commit_keys in Hsrc;
        rewrite ?in_app_iff, ?He in Hsrc; simpl in Hsrc; tauto. }
    unfold c, aggregate in Ht. cbn [skip_of] in Ht.
    rewrite (aggregate_excluded skipUser (skip_of_sound ContributorsList)
               k (Hl k Hin) t initial d) in Ht
      by (rewrite He; intros []).
    destruct t; discriminate Ht.
Qed.

(** X17.  On a fresh module [getContributorsList] returns [undefined]
    exactly when the pull request has no commit without a linked account
    and every author of a linked commit, a review, a comment, a linked issue
    or a comment on one is ["github-actions"]; in every other case it
    returns a text or throws. *)
Theorem returns_undefined_iff (sv : Services) :
  outcome (getContributorsList sv initial) = Returned None
  <-> fallback_emails (getContributorData sv) = []
      /\ forall k, In k (login_channels (getContributorData sv)) ->
                   In k skippedUsers.
Proof.
  set (d := getContributorData sv).
  unfold getContributorsList. fold d.
  destruct (pass skipUser initial d) as [s1|s'] eqn:Hp.
  - rewrite <- nobody_credited_iff.
    apply pass_completed in Hp.
    change (aggregate_from skipUser initial d)
      with (aggregate ContributorsList d) in Hp.
    rewrite <- Hp. unfold afterPass. cbv zeta.
    set (c := contributors s1).
    assert (Hg : githubUsers c = committers c ++ others c) by reflexivity.
    destruct (snd (snd (backfillStep sv s1))) eqn:Hb.
    + cbn [stopped outcome]. split; [discriminate|]. intros Hn. exfalso.
      unfold backfillStep in Hb. fold c in Hb.
      rewrite Hn in Hg. symmetry in Hg. apply app_eq_nil in Hg as [_ Ho].
      rewrite Ho in Hb. discriminate Hb.
    + destruct (length (githubUsers c) =? 0)%nat eqn:Hx.
      * apply Nat.eqb_eq, length_zero_iff_nil in Hx. cbn [outcome]. tauto.
      * rewrite finish_outcome. split.
        -- destruct (render _ _ []) as [[? ?]|]; discriminate.
        -- intros Hn. rewrite Hn in Hx. discriminate Hx.
  - cbn [stopped outcome]. split; [discriminate|]. intros [He Hl]. exfalso.
    destruct (pass_thrown _ _ _ _ Hp) as (pre & a & post & Hc & Hk & _).
    assert (Ha : In a (commits d))
      by (rewrite Hc; apply in_app_iff; right; now left).
    destruct (stored_key_commit_key _ _ _ _ Hk) as [[Hu Hm]|(u & Hu & Hm & Hs)].
    + assert (Hin : In "length" (fallback_emails d))
        by (apply fallback_emails_In; eauto).
      rewrite He in Hin. destruct Hin.
    + apply skipUser_false_iff in Hs as [Hs _]. apply Hs, Hl.
      unfold login_channels. apply in_app_iff. left.
      apply commit_logins_In. eauto.
Qed.
